(** * Reverb control: the signal-conditioning pipeline of PLUGIN.py

    The script tracks a hand, turns its centre into two control values
    ("/size" and "/decay") and sends them over OSC.  This file embeds the
    numeric helpers ([lerp], [clamp01], [ema], [resp_curve], [quantize],
    [within_deadzone]) and the body of the [while] loop of [main], and
    proves properties of the smoothing, quantization, dead-zone and
    rate-limit stages.

    The helpers of PLUGIN.py are written with Python's overloaded
    operators only, so they are embedded once, over an interface
    [PyNumber] of those operators, and run at two number types:
    - [float]: IEEE binary64, what [main] really feeds them (Rocq's
      primitive floats compute the very same roundings as CPython);
    - [Q]: exact rationals (Python's [fractions.Fraction]), the
      arithmetic in which the textbook properties of the filters hold.

    The camera, the landmark detector, the OSC client and the preview
    window are outside: a frame arrives as an optional position and a
    clock reading, and what is sent is returned as a list of messages. *)

From Stdlib Require Import ZArith QArith Qabs Qminmax Qpower Bool List Sorted.
From Stdlib Require Import Lia Lqa Floats.
Import ListNotations.

Set Warnings "-inexact-float".

(** ** Exceptions and fallible results *)

(** The built-in exceptions the arithmetic of the pipeline can raise. *)
Inductive PyError : Type :=
| ZeroDivisionError
| OverflowError
| ValueError.

Inductive result (A : Type) : Type :=
| Ok (a : A)
| Raise (e : PyError).
Arguments Ok {A} a.
Arguments Raise {A} e.

Definition bind {A B : Type} (r : result A) (k : A -> result B) : result B :=
  match r with
  | Ok a => k a
  | Raise e => Raise e
  end.

Notation "x <- r ;; k" := (bind r (fun x => k))
  (at level 61, r at next level, right associativity).

(** ** The operators the helpers use *)

(** [round_half_even n d] is Python's [round] of the fraction [n/d]
    ([d > 0]) to an integer: to the nearest, a tie to the even
    neighbour.  It follows [Fraction.__round__]: [divmod], then the
    comparison of twice the remainder with the denominator. *)
Definition round_half_even (n d : Z) : Z :=
  let fl := (n / d)%Z in
  let r := (n mod d)%Z in
  match (2 * r ?= d)%Z with
  | Lt => fl
  | Gt => (fl + 1)%Z
  | Eq => if Z.even fl then fl else (fl + 1)%Z
  end.

Class PyNumber (F : Type) : Type := {
  (** the literals [0.0] and [1.0] (or [1]) *)
  zero : F;
  one : F;
  add : F -> F -> F;
  sub : F -> F -> F;
  mul : F -> F -> F;
  (** [x / y]: raises ZeroDivisionError when [y == 0] *)
  div : F -> F -> result F;
  (** [abs(x)] *)
  absolute : F -> F;
  (** [x < y] and [x <= y]; [x > y] is [ltb y x], [x >= y] is [leb y x] *)
  ltb : F -> F -> bool;
  leb : F -> F -> bool;
  (** [round(x)] with one argument: an [int] *)
  round : F -> result Z;
  (** the conversion of the [int] operand in [int * x] *)
  of_int : Z -> result F
}.

(** *** binary64 *)

Module Float.

(** [float.__round__] without [ndigits]: OverflowError on an infinity,
    ValueError on a NaN, else the exact value [(-1)^s * m * 2^e] rounded
    half to even. *)
Definition round (x : float) : result Z :=
  match Prim2SF x with
  | S754_zero _ => Ok 0%Z
  | S754_infinity _ => Raise OverflowError
  | S754_nan => Raise ValueError
  | S754_finite s m e =>
      Ok (if (0 <=? e)%Z
          then cond_Zopp s (Zpos m * 2 ^ e)
          else round_half_even (cond_Zopp s (Zpos m)) (2 ^ (- e)))
  end.

(** [int] to [float]: correctly rounded (to nearest, ties to even);
    OverflowError when the integer is too large for a double. *)
Definition of_int (k : Z) : result float :=
  match binary_normalize prec emax k 0 false with
  | S754_infinity _ => Raise OverflowError
  | sf => Ok (SF2Prim sf)
  end.

(** [float_div]: the divisor is compared with [0.0] first ([-0.0]
    included). *)
Definition div (x y : float) : result float :=
  if PrimFloat.eqb y 0 then Raise ZeroDivisionError else Ok (x / y)%float.

End Float.

#[export] Instance float_number : PyNumber float := {
  zero := 0%float;
  one := 1%float;
  add := PrimFloat.add;
  sub := PrimFloat.sub;
  mul := PrimFloat.mul;
  div := Float.div;
  absolute := PrimFloat.abs;
  ltb := PrimFloat.ltb;
  leb := PrimFloat.leb;
  round := Float.round;
  of_int := Float.of_int
}.

(** *** exact rationals *)

Module Fraction.

Definition div (x y : Q) : result Q :=
  if Qeq_bool y 0 then Raise ZeroDivisionError else Ok (x / y)%Q.

Definition round (x : Q) : result Z :=
  Ok (round_half_even (Qnum x) (Zpos (Qden x))).

Definition ltb (x y : Q) : bool := negb (Qle_bool y x).

End Fraction.

#[export] Instance fraction_number : PyNumber Q := {
  zero := 0%Q;
  one := 1%Q;
  add := Qplus;
  sub := Qminus;
  mul := Qmult;
  div := Fraction.div;
  absolute := Qabs;
  ltb := Fraction.ltb;
  leb := Qle_bool;
  round := Fraction.round;
  of_int := fun k => Ok (inject_Z k)
}.

(** ** The helpers of PLUGIN.py *)

Section Helpers.

Context {F : Type} `{PyNumber F}.

(** [def lerp(a, b, t): return a + (b - a) * t] *)
Definition lerp (a b t : F) : F := add a (mul (sub b a) t).

(** The two-argument built-ins: [min(a, b)] is [b] when [b < a], else
    [a]; [max(a, b)] is [b] when [b > a], else [a]. *)
Definition py_min (a b : F) : F := if ltb b a then b else a.
Definition py_max (a b : F) : F := if ltb a b then b else a.

(** [def clamp01(x): return max(0.0, min(1.0, x))] *)
Definition clamp01 (x : F) : F := py_max zero (py_min one x).

(** [def ema(prev, new, a):
       return a * new + (1 - a) * prev if prev is not None else new] *)
Definition ema (prev : option F) (new a : F) : F :=
  match prev with
  | Some p => add (mul a new) (mul (sub one a) p)
  | None => new
  end.

(** [def quantize(v, step): return round(v / step) * step] *)
Definition quantize (v step : F) : result F :=
  d <- div v step ;;
  k <- round d ;;
  kf <- of_int k ;;
  Ok (mul kf step).

(** [def within_deadzone(prev, cur, rmin, rmax, dz_frac):
       if prev is None: return False
       return abs(cur - prev) < dz_frac * (rmax - rmin)] *)
Definition within_deadzone (prev : option F) (cur rmin rmax dz_frac : F)
  : bool :=
  match prev with
  | None => false
  | Some p => ltb (absolute (sub cur p)) (mul dz_frac (sub rmax rmin))
  end.

End Helpers.

(** ** Configuration, state and one pass of the loop of [main] *)

(** The constants of the CONFIG block that the pipeline reads. *)
Record Config (F : Type) : Type := {
  SIZE_RANGE : F * F;
  DECAY_RANGE : F * F;
  SMOOTH_ALPHA : F;
  DEADZONE_NORM : F;
  STEP_SIZE : F;
  STEP_DECAY : F;
  MAX_UPS : F;
  GAMMA_X : F;
  GAMMA_Y : F;
  INVERT_Y : bool
}.
Arguments SIZE_RANGE {F} _.
Arguments DECAY_RANGE {F} _.
Arguments SMOOTH_ALPHA {F} _.
Arguments DEADZONE_NORM {F} _.
Arguments STEP_SIZE {F} _.
Arguments STEP_DECAY {F} _.
Arguments MAX_UPS {F} _.
Arguments GAMMA_X {F} _.
Arguments GAMMA_Y {F} _.
Arguments INVERT_Y {F} _.

(** The local variables of [main] that live across iterations. *)
Record State (F : Type) : Type := {
  sm_size : option F;
  sm_decay : option F;
  last_tx_time : F;
  last_sent_size : option F;
  last_sent_decay : option F
}.
Arguments sm_size {F} _.
Arguments sm_decay {F} _.
Arguments last_tx_time {F} _.
Arguments last_sent_size {F} _.
Arguments last_sent_decay {F} _.

(** One camera frame as the loop sees it: the mean landmark position
    [(cx, cy)] when a hand was detected, and the value [time.time()]
    returns during that iteration. *)
Record Frame (F : Type) : Type := {
  detected : option (F * F);
  clock : F
}.
Arguments detected {F} _.
Arguments clock {F} _.

(** An OSC message: address and value. *)
Inductive Address : Type := addr_size | addr_decay.
Definition Msg (F : Type) : Type := (Address * F)%type.

(** One "TX" line: the time and the messages of an iteration that sent
    something. *)
Definition Transmission (F : Type) : Type := (F * list (Msg F))%type.

Section Pipeline.

Context {F : Type} `{PyNumber F}.

(** The operator [**] of [resp_curve].  On floats it is the C library's
    [pow] (ZeroDivisionError for [0.0] to a negative power), which has no
    counterpart here; every statement below holds for any [power]. *)
Variable power : F -> F -> result F.

(** [def resp_curve(t, gamma): return clamp01(t) ** gamma] *)
Definition resp_curve (t gamma : F) : result F := power (clamp01 t) gamma.

(** Lines 53-57: the state before the first frame. *)
Definition init : State F :=
  {| sm_size := None;
     sm_decay := None;
     last_tx_time := zero;
     last_sent_size := None;
     last_sent_decay := None |}.

(** Lines 79-84: shaping and range mapping. *)
Definition targets (cfg : Config F) (cx cy : F) : result (F * F) :=
  nx <- resp_curve cx (GAMMA_X cfg) ;;
  ny <- resp_curve (if INVERT_Y cfg then sub one cy else cy) (GAMMA_Y cfg) ;;
  Ok (lerp (fst (SIZE_RANGE cfg)) (snd (SIZE_RANGE cfg)) nx,
      lerp (fst (DECAY_RANGE cfg)) (snd (DECAY_RANGE cfg)) ny).

(** Lines 87-88: smoothing. *)
Definition smooth (cfg : Config F) (st : State F) (tg : F * F) : State F :=
  {| sm_size := Some (ema (sm_size st) (fst tg) (SMOOTH_ALPHA cfg));
     sm_decay := Some (ema (sm_decay st) (snd tg) (SMOOTH_ALPHA cfg));
     last_tx_time := last_tx_time st;
     last_sent_size := last_sent_size st;
     last_sent_decay := last_sent_decay st |}.

(** Lines 91-92: quantization of the two smoothed values ([v] and [w]
    are [sm_size] and [sm_decay], just assigned). *)
Definition candidates (cfg : Config F) (v w : F) : result (F * F) :=
  cand_size <- quantize v (STEP_SIZE cfg) ;;
  cand_decay <- quantize w (STEP_DECAY cfg) ;;
  Ok (cand_size, cand_decay).

(** Line 96: [now - last_tx_time >= 1.0 / MAX_UPS]. *)
Definition rate_eligible (cfg : Config F) (st : State F) (now : F)
  : result bool :=
  period <- div one (MAX_UPS cfg) ;;
  Ok (leb period (sub now (last_tx_time st))).

(** Lines 97-100. *)
Definition send_size (cfg : Config F) (st : State F) (cand_size : F) : bool :=
  negb (within_deadzone (last_sent_size st) cand_size
          (fst (SIZE_RANGE cfg)) (snd (SIZE_RANGE cfg)) (DEADZONE_NORM cfg)).
Definition send_decay (cfg : Config F) (st : State F) (cand_decay : F) : bool :=
  negb (within_deadzone (last_sent_decay st) cand_decay
          (fst (DECAY_RANGE cfg)) (snd (DECAY_RANGE cfg)) (DEADZONE_NORM cfg)).

(** Lines 97-111: the body of the rate-limit [if]. *)
Definition transmit (cfg : Config F) (st : State F) (cand : F * F) (now : F)
  : State F * list (Msg F) :=
  let ss := send_size cfg st (fst cand) in
  let sd := send_decay cfg st (snd cand) in
  ({| sm_size := sm_size st;
      sm_decay := sm_decay st;
      last_tx_time := if ss || sd then now else last_tx_time st;
      last_sent_size := if ss then Some (fst cand) else last_sent_size st;
      last_sent_decay := if sd then Some (snd cand) else last_sent_decay st |},
   (if ss then [(addr_size, fst cand)] else [])
     ++ (if sd then [(addr_decay, snd cand)] else [])).

(** Lines 95-111: rate limit and dead zone. *)
Definition gate (cfg : Config F) (st : State F) (cand : F * F) (now : F)
  : result (State F * list (Msg F)) :=
  ok <- rate_eligible cfg st now ;;
  Ok (if ok then transmit cfg st cand now else (st, [])).

(** Lines 71-111: one iteration.  Without a detection
    ([res.multi_hand_landmarks] empty) the whole block is skipped. *)
Definition step (cfg : Config F) (st : State F) (fr : Frame F)
  : result (State F * list (Msg F)) :=
  match detected fr with
  | None => Ok (st, [])
  | Some (cx, cy) =>
      tg <- targets cfg cx cy ;;
      let st1 := smooth cfg st tg in
      cand <- candidates cfg (ema (sm_size st) (fst tg) (SMOOTH_ALPHA cfg))
                             (ema (sm_decay st) (snd tg) (SMOOTH_ALPHA cfg)) ;;
      gate cfg st1 cand (clock fr)
  end.

(** The [while] loop over the frames the camera delivers, from state
    [st]: the final state and the transmissions in order.  An exception
    ends the program. *)
Fixpoint main_loop (cfg : Config F) (st : State F) (frames : list (Frame F))
  : result (State F * list (Transmission F)) :=
  match frames with
  | [] => Ok (st, [])
  | fr :: rest =>
      r <- step cfg st fr ;;
      o <- main_loop cfg (fst r) rest ;;
      Ok (fst o,
          match snd r with
          | [] => snd o
          | msgs => (clock fr, msgs) :: snd o
          end)
  end.

(** [main]: the loop from the initial state. *)
Definition main (cfg : Config F) (frames : list (Frame F))
  : result (State F * list (Transmission F)) :=
  main_loop cfg init frames.

End Pipeline.

(** ** The CONFIG block of PLUGIN.py, as floats *)

Definition CONFIG : Config float :=
  {| SIZE_RANGE := (10, 100)%float;
     DECAY_RANGE := (0.80, 0.98)%float;
     SMOOTH_ALPHA := 0.12%float;
     DEADZONE_NORM := 0.02%float;
     STEP_SIZE := 0.5%float;
     STEP_DECAY := 0.003%float;
     MAX_UPS := 30%float;
     GAMMA_X := 0.9%float;
     GAMMA_Y := 0.9%float;
     INVERT_Y := true |}.


(** [x ** 1.0] is [x]: the power operator at the exponent of a linear
    response curve, for the runs below that use [GAMMA_X = GAMMA_Y = 1.0]. *)
Definition power_linear {F : Type} (x gamma : F) : result F := Ok x.

(** CONFIG with a linear response curve and the given size range, size
    step and update rate. *)
Definition CONFIG_with (size_range : float * float) (step_size max_ups : float)
  : Config float :=
  {| SIZE_RANGE := size_range;
     DECAY_RANGE := DECAY_RANGE CONFIG;
     SMOOTH_ALPHA := SMOOTH_ALPHA CONFIG;
     DEADZONE_NORM := DEADZONE_NORM CONFIG;
     STEP_SIZE := step_size;
     STEP_DECAY := STEP_DECAY CONFIG;
     MAX_UPS := max_ups;
     GAMMA_X := 1%float;
     GAMMA_Y := 1%float;
     INVERT_Y := INVERT_Y CONFIG |}.

(** CONFIG with a linear response curve. *)
Definition CONFIG_linear : Config float := CONFIG_with (10, 100)%float 0.5 30.

(** The size range reversed ([min >= max]). *)
Definition CONFIG_reversed : Config float := CONFIG_with (100, 10)%float 0.5 30.

(** A zero size step, and a zero update rate. *)
Definition CONFIG_zero_step : Config float := CONFIG_with (10, 100)%float 0 30.
Definition CONFIG_zero_rate : Config float := CONFIG_with (10, 100)%float 0.5 0.

(** The same constants as exact rationals, with a linear response curve. *)
Definition CONFIG_exact : Config Q :=
  {| SIZE_RANGE := (10, 100)%Q;
     DECAY_RANGE := (80 # 100, 98 # 100)%Q;
     SMOOTH_ALPHA := (12 # 100)%Q;
     DEADZONE_NORM := (2 # 100)%Q;
     STEP_SIZE := (1 # 2)%Q;
     STEP_DECAY := (3 # 1000)%Q;
     MAX_UPS := 30%Q;
     GAMMA_X := 1%Q;
     GAMMA_Y := 1%Q;
     INVERT_Y := true |}.

(** A frame with a detection at [(cx, cy)], read at time [t]. *)
Definition hand {F : Type} (cx cy t : F) : Frame F :=
  {| detected := Some (cx, cy); clock := t |}.

(** A frame without a detection. *)
Definition no_hand {F : Type} (t : F) : Frame F :=
  {| detected := None; clock := t |}.

(** ** The vocabulary of the specification *)

Section SpecWords.

Context {F : Type} `{PyNumber F}.

(** Spec 4.5, rate limiter: "the tick is rate-eligible iff
    lastTransmitTime is empty or now - lastTransmitTime >=
    1/maxUpdatesPerSecond", over an optional lastTransmitTime. *)
Definition spec_rate_eligible (cfg : Config F) (lastTransmitTime : option F)
  (now : F) : result bool :=
  match lastTransmitTime with
  | None => Ok true
  | Some l =>
      period <- div one (MAX_UPS cfg) ;;
      Ok (leb period (sub now l))
  end.

(** Spec 3 and 6, the constraints on the configuration: [min < max] for
    both ranges, positive steps, rate and gammas, alpha in (0,1], dead-zone
    fraction in [0,1). *)
Definition valid_config (cfg : Config F) : bool :=
  ltb (fst (SIZE_RANGE cfg)) (snd (SIZE_RANGE cfg))
  && ltb (fst (DECAY_RANGE cfg)) (snd (DECAY_RANGE cfg))
  && ltb zero (STEP_SIZE cfg)
  && ltb zero (STEP_DECAY cfg)
  && ltb zero (MAX_UPS cfg)
  && ltb zero (GAMMA_X cfg)
  && ltb zero (GAMMA_Y cfg)
  && ltb zero (SMOOTH_ALPHA cfg)
  && leb (SMOOTH_ALPHA cfg) one
  && leb zero (DEADZONE_NORM cfg)
  && ltb (DEADZONE_NORM cfg) one.

(** Spec 4.3: the smoother fed a sequence of targets, from the empty
    state. *)
Definition smoothed_after (a : F) (tgts : list F) : option F :=
  fold_left (fun s t => Some (ema s t a)) tgts None.

(** Two transmissions at [t1] then [t2] are no closer than
    [1/MAX_UPS], by the comparison of line 96. *)
Definition separated (cfg : Config F) (t1 t2 : F) : Prop :=
  exists period,
    div one (MAX_UPS cfg) = Ok period /\ leb period (sub t2 t1) = true.

(** Every transmission of a log is separated from the one before it, the
    first one from [prev]. *)
Fixpoint chained (cfg : Config F) (prev : F) (log : list (Transmission F))
  : Prop :=
  match log with
  | [] => True
  | tx :: rest => separated cfg prev (fst tx) /\ chained cfg (fst tx) rest
  end.

End SpecWords.

(** The clocks of a run never go back, by the comparison [<=] of the
    number type. *)
Definition nondecreasing {F : Type} `{PyNumber F} (frames : list (Frame F))
  : Prop :=
  StronglySorted (fun a b => leb a b = true) (map clock frames).

(** Any two transmissions of a log, the earlier and the later, are
    separated. *)
Definition all_separated {F : Type} `{PyNumber F} (cfg : Config F)
  (log : list (Transmission F)) : Prop :=
  ForallOrdPairs (fun a b => separated cfg (fst a) (fst b)) log.

(** The two properties of an arithmetic that the rate limiter relies on
    across more than two transmissions: [<=] is transitive, and on the
    clock values [P] the difference [c - x] does not grow with [x].
    (Exact rationals have both for every value; IEEE subtraction rounds
    monotonically, but [inf - inf] is a NaN, hence the domain [P].) *)
Definition monotone_arithmetic (F : Type) `{PyNumber F} (P : F -> Prop) : Prop :=
  (forall a b c : F, leb a b = true -> leb b c = true -> leb a c = true)
  /\ (forall a b c : F,
        P a -> P b -> P c ->
        leb a b = true -> leb (sub c b) (sub c a) = true).

(** An optional smoothed value lies in the interval [lo, hi]. *)
Definition within (lo hi : Q) (s : option Q) : Prop :=
  forall v, s = Some v -> lo <= v /\ v <= hi.

(** Every target a run feeds the smoothers lies in [lo, hi] (size) and
    in [lo', hi'] (decay). *)
Definition targets_within (power : Q -> Q -> result Q) (cfg : Config Q)
  (frames : list (Frame Q)) (lo hi lo' hi' : Q) : Prop :=
  forall fr cx cy tg,
    In fr frames -> detected fr = Some (cx, cy) ->
    targets power cfg cx cy = Ok tg ->
    (lo <= fst tg /\ fst tg <= hi) /\ (lo' <= snd tg /\ snd tg <= hi').

(** The least and the greatest of a non-empty list of targets. *)
Definition least (t : Q) (ts : list Q) : Q := fold_left Qmin ts t.
Definition greatest (t : Q) (ts : list Q) : Q := fold_left Qmax ts t.

(** The point [k * s] of the float grid of step [s] is quantized to
    itself (compared with [==]), and so are all the points from [-K * s]
    to [K * s]. *)
Definition grid_point_fixed (s : float) (k : Z) : bool :=
  match of_int k with
  | Ok kf =>
      match quantize (mul kf s) s with
      | Ok q => PrimFloat.eqb q (mul kf s)
      | Raise _ => false
      end
  | Raise _ => false
  end.

Definition grid_fixed_upto (s : float) (K : nat) : bool :=
  forallb (fun n => grid_point_fixed s (Z.of_nat n)
                    && grid_point_fixed s (- Z.of_nat n))
          (seq 0 (S K)).

(** ** Sample states and runs *)

(** The state of [main] under [CONFIG_linear] after one detection at the
    centre of the image, read at time 1000. *)
Definition centred : State float :=
  {| sm_size := Some 55%float;
     sm_decay := Some 0.89%float;
     last_tx_time := 1000%float;
     last_sent_size := Some 55%float;
     last_sent_decay := Some 0.891%float |}.

(** A run over exact rationals: a hand that moves right while the clock
    advances by hundredths of a second. *)
Definition exact_frames : list (Frame Q) :=
  [ hand (1 # 2) (1 # 2) 1000;
    hand (7 # 10) (1 # 2) (100001 # 100);
    hand (7 # 10) (1 # 2) (100002 # 100);
    hand (7 # 10) (1 # 2) (100004 # 100);
    no_hand (100006 # 100);
    hand (9 # 10) (1 # 2) (100008 # 100) ].

(** ** Vocabulary for whole runs *)

Definition Address_eqb (a b : Address) : bool :=
  match a, b with
  | addr_size, addr_size | addr_decay, addr_decay => true
  | _, _ => false
  end.

(** The values a list of messages carries to one address. *)
Definition values_to {F : Type} (a : Address) (msgs : list (Msg F)) : list F :=
  map snd (filter (fun m => Address_eqb (fst m) a) msgs).

(** The values a run sent to one address, in order. *)
Definition sent_values {F : Type} (a : Address) (log : list (Transmission F))
  : list F :=
  flat_map (fun tx => values_to a (snd tx)) log.

(** The last of a list of values, or [prev] when there is none. *)
Definition latest {F : Type} (prev : option F) (vs : list F) : option F :=
  fold_left (fun _ v => Some v) vs prev.

(** The time of the last transmission of a log, or [prev] when the log is
    empty. *)
Definition last_time {F : Type} (prev : F) (log : list (Transmission F)) : F :=
  fold_left (fun _ tx => fst tx) log prev.

Section RunWords.

Context {F : Type} `{PyNumber F}.

(** No value of the list is within the dead zone of the value before it
    (the first one of [prev]). *)
Fixpoint spaced (rng : F * F) (dz : F) (prev : option F) (vs : list F) : Prop :=
  match vs with
  | [] => True
  | v :: rest =>
      within_deadzone prev v (fst rng) (snd rng) dz = false
      /\ spaced rng dz (Some v) rest
  end.

Variable power : F -> F -> result F.

(** The targets (lines 79-84) of the frames with a detection, in order. *)
Fixpoint fed_targets (cfg : Config F) (frames : list (Frame F))
  : result (list (F * F)) :=
  match frames with
  | [] => Ok []
  | fr :: rest =>
      match detected fr with
      | None => fed_targets cfg rest
      | Some (cx, cy) =>
          tg <- targets power cfg cx cy ;;
          tgs <- fed_targets cfg rest ;;
          Ok (tg :: tgs)
      end
  end.

End RunWords.

(** What is asked of the power operator where a statement needs it: that
    it keeps [0, 1] inside [0, 1] (as [x ** gamma] does for [gamma > 0]),
    or that it raises nothing. *)
Definition power_into_unit (power : Q -> Q -> result Q) : Prop :=
  forall x g y, 0 <= x -> x <= 1 -> power x g = Ok y -> 0 <= y /\ y <= 1.

Definition power_total (power : Q -> Q -> result Q) : Prop :=
  forall x g, exists y, power x g = Ok y.

(** A run on floats: a hand that moves right, sampled every hundredth of
    a second, with one detection miss. *)
Definition moving_frames : list (Frame float) :=
  [ hand 0.5 0.5 1000; hand 0.7 0.5 1000.01; hand 0.7 0.5 1000.02;
    hand 0.7 0.5 1000.03; no_hand 1000.035; hand 0.7 0.5 1000.04 ]%float.

(** * Properties *)

(** ** The loop body, stage by stage *)

Lemma bind_ok {A B : Type} (r : result A) (k : A -> result B) (b : B) :
  bind r k = Ok b -> exists a, r = Ok a /\ k a = Ok b.
Proof.
  destruct r as [a|e]; simpl; intros E; [exists a; auto | discriminate].
Qed.

(** Splits a successful pass of [main_loop] over [fr :: rest] into the
    iteration on [fr] and the run over [rest]. *)
Ltac split_loop E st1 msgs st2 log2 Es Er :=
  apply bind_ok in E as ([st1 msgs] & Es & E);
  apply bind_ok in E as ([st2 log2] & Er & E);
  simpl in *; inversion E; subst; clear E.

Section StepFacts.

Context {F : Type} `{PyNumber F}.
Variable power : F -> F -> result F.

Lemma state_eta (st : State F) :
  {| sm_size := sm_size st;
     sm_decay := sm_decay st;
     last_tx_time := last_tx_time st;
     last_sent_size := last_sent_size st;
     last_sent_decay := last_sent_decay st |} = st.
Proof. destruct st; reflexivity. Qed.

Lemma gate_open (cfg : Config F) (st : State F) (cand : F * F) (now : F) :
  rate_eligible cfg st now = Ok true ->
  gate cfg st cand now = Ok (transmit cfg st cand now).
Proof. unfold gate; intros ->; reflexivity. Qed.

Lemma gate_closed (cfg : Config F) (st : State F) (cand : F * F) (now : F) :
  rate_eligible cfg st now = Ok false ->
  gate cfg st cand now = Ok (st, []).
Proof. unfold gate; intros ->; reflexivity. Qed.

(** What a successful iteration on a detection went through. *)
Lemma step_hand_inv (cfg : Config F) (st st' : State F) (fr : Frame F)
  (cx cy : F) (msgs : list (Msg F)) :
  detected fr = Some (cx, cy) ->
  step power cfg st fr = Ok (st', msgs) ->
  exists tg cand ok,
    targets power cfg cx cy = Ok tg
    /\ candidates cfg (ema (sm_size st) (fst tg) (SMOOTH_ALPHA cfg))
                      (ema (sm_decay st) (snd tg) (SMOOTH_ALPHA cfg)) = Ok cand
    /\ rate_eligible cfg (smooth cfg st tg) (clock fr) = Ok ok
    /\ (st', msgs) = if ok then transmit cfg (smooth cfg st tg) cand (clock fr)
                     else (smooth cfg st tg, []).
Proof.
  intros D E. unfold step in E. rewrite D in E.
  apply bind_ok in E as (tg & Etg & E).
  apply bind_ok in E as (cand & Ecand & E).
  unfold gate in E. apply bind_ok in E as (ok & Eok & E).
  exists tg, cand, ok. repeat split; auto. congruence.
Qed.

(** A frame without a detection changes nothing and sends nothing. *)
Lemma step_no_hand (cfg : Config F) (st : State F) (fr : Frame F) :
  detected fr = None -> step power cfg st fr = Ok (st, []).
Proof. unfold step; intros ->; reflexivity. Qed.

(** The transmit block sends nothing exactly when both channels are in
    their dead zone, and then it moves neither the clock of the limiter
    nor the last sent values. *)
Lemma transmit_silent (cfg : Config F) (st : State F) (cand : F * F) (now : F) :
  send_size cfg st (fst cand) = false ->
  send_decay cfg st (snd cand) = false ->
  transmit cfg st cand now = (st, []).
Proof.
  intros S D. unfold transmit. rewrite S, D. simpl.
  now rewrite state_eta.
Qed.

Lemma transmit_msgs_nil (cfg : Config F) (st : State F) (cand : F * F) (now : F) :
  snd (transmit cfg st cand now) = [] ->
  send_size cfg st (fst cand) = false /\ send_decay cfg st (snd cand) = false.
Proof.
  unfold transmit; simpl.
  destruct (send_size cfg st (fst cand)), (send_decay cfg st (snd cand));
    simpl; intros E; try discriminate; auto.
Qed.

Lemma transmit_msgs_cons (cfg : Config F) (st : State F) (cand : F * F) (now : F) :
  snd (transmit cfg st cand now) <> [] ->
  last_tx_time (fst (transmit cfg st cand now)) = now.
Proof.
  unfold transmit; simpl.
  destruct (send_size cfg st (fst cand)), (send_decay cfg st (snd cand));
    simpl; intros E; auto. now elim E.
Qed.

(** Line 111 formats both last sent values with a float format, which
    would fail on [None]; it never does: when the line is reached each
    channel has either just sent or was suppressed against a value sent
    before.  (So leaving the [print] out of [transmit] loses no
    exception.) *)
Lemma transmit_tx_line_defined (cfg : Config F) (st : State F) (cand : F * F)
  (now : F) :
  last_sent_size (fst (transmit cfg st cand now)) <> None
  /\ last_sent_decay (fst (transmit cfg st cand now)) <> None.
Proof.
  unfold transmit, send_size, send_decay; simpl.
  destruct (last_sent_size st), (last_sent_decay st); simpl;
    repeat match goal with
           | |- context [negb ?b] => destruct b; simpl
           end; split; discriminate.
Qed.

(** The limiter's clock after an iteration: the frame's time when
    something was sent, otherwise what it was. *)
Lemma step_last_tx_time (cfg : Config F) (st st' : State F) (fr : Frame F)
  (msgs : list (Msg F)) :
  step power cfg st fr = Ok (st', msgs) ->
  (msgs = [] /\ last_tx_time st' = last_tx_time st)
  \/ (msgs <> [] /\ last_tx_time st' = clock fr
      /\ rate_eligible cfg st (clock fr) = Ok true).
Proof.
  intros E. destruct (detected fr) as [[cx cy]|] eqn:D.
  - destruct (step_hand_inv _ _ _ _ _ _ _ D E) as (tg & cand & ok & _ & _ & Eok & Er).
    destruct ok.
    + destruct msgs as [|m msgs'].
      * left. split; auto.
        assert (N : snd (transmit cfg (smooth cfg st tg) cand (clock fr)) = [])
          by (rewrite <- Er; reflexivity).
        apply transmit_msgs_nil in N as [S1 S2].
        rewrite (transmit_silent _ _ _ _ S1 S2) in Er.
        inversion Er; reflexivity.
      * right. split; [discriminate|]. split; auto.
        assert (N : snd (transmit cfg (smooth cfg st tg) cand (clock fr)) <> [])
          by (rewrite <- Er; discriminate).
        apply transmit_msgs_cons in N. rewrite <- Er in N. exact N.
    + inversion Er; subst. left; auto.
  - rewrite (step_no_hand _ _ _ D) in E. inversion E; subst. left; auto.
Qed.

(** Every run satisfies the chain of line 96: each transmission passed
    the comparison against the transmission before it. *)
Lemma main_loop_chained (cfg : Config F) (frames : list (Frame F)) :
  forall (st st' : State F) (log : list (Transmission F)),
    main_loop power cfg st frames = Ok (st', log) ->
    chained cfg (last_tx_time st) log.
Proof.
  induction frames as [|fr rest IH]; simpl; intros st st' log E.
  - inversion E; subst; exact I.
  - split_loop E st1 msgs st2 log2 Es Er.
    specialize (IH _ _ _ Er).
    destruct (step_last_tx_time _ _ _ _ _ Es) as [[-> L]|(N & L & G)].
    + rewrite <- L. exact IH.
    + destruct msgs as [|m ms]; [now elim N|].
      simpl. split; [|rewrite <- L; exact IH].
      unfold rate_eligible in G. apply bind_ok in G as (p & Ep & G).
      exists p. split; auto. congruence.
Qed.

(** As long as a run has transmitted nothing, the limiter's clock is the
    one it started with. *)
Lemma main_loop_silent (cfg : Config F) (frames : list (Frame F)) :
  forall (st st' : State F),
    main_loop power cfg st frames = Ok (st', []) ->
    last_tx_time st' = last_tx_time st.
Proof.
  induction frames as [|fr rest IH]; simpl; intros st st' E.
  - inversion E; subst; reflexivity.
  - apply bind_ok in E as ([st1 msgs] & Es & E).
    apply bind_ok in E as ([st2 log2] & Er & E).
    simpl in *.
    destruct msgs as [|m ms]; inversion E; subst; clear E.
    rewrite (IH _ _ Er).
    destruct (step_last_tx_time _ _ _ _ _ Es) as [[_ L]|[Nn _]]; auto.
    now elim Nn.
Qed.

(** Frames without a detection can be dropped from a run. *)
Lemma main_loop_skip (cfg : Config F) (fr : Frame F) (post : list (Frame F)) :
  detected fr = None ->
  forall (pre : list (Frame F)) (st : State F),
    main_loop power cfg st (pre ++ fr :: post)
    = main_loop power cfg st (pre ++ post).
Proof.
  intros D. induction pre as [|a pre IH]; intros st; simpl.
  - rewrite (step_no_hand _ _ _ D). simpl.
    destruct (main_loop power cfg st post) as [[s l]|e]; reflexivity.
  - destruct (step power cfg st a) as [[s1 m1]|e]; simpl; [|reflexivity].
    now rewrite IH.
Qed.

End StepFacts.

(** ** Detection misses *)

(** C7: a frame without a detection changes no state (neither smoothed
    value, neither last sent value, nor the time of the last transmission)
    and transmits nothing; hence a run over two detections gives the same
    final state and the same transmissions with or without a detection
    miss between them, and so does any run with a miss removed anywhere. *)
Theorem detection_miss_transparent :
  forall (F : Type) (N : PyNumber F) (power : F -> F -> result F)
         (cfg : Config F) (st : State F) (t : F),
    step power cfg st (no_hand t) = Ok (st, [])
    /\ (forall cx1 cy1 t1 cx2 cy2 t2,
          main_loop power cfg st [hand cx1 cy1 t1; no_hand t; hand cx2 cy2 t2]
          = main_loop power cfg st [hand cx1 cy1 t1; hand cx2 cy2 t2])
    /\ (forall pre post,
          main_loop power cfg st (pre ++ no_hand t :: post)
          = main_loop power cfg st (pre ++ post)).
Proof.
  intros F N power cfg st t. split; [|split].
  - apply step_no_hand. reflexivity.
  - intros. apply (main_loop_skip power cfg (no_hand t) [hand cx2 cy2 t2]
                     eq_refl [hand cx1 cy1 t1] st).
  - intros. apply main_loop_skip. reflexivity.
Qed.

(** ** The transmission gate *)

(** C5: on a rate-eligible iteration where both candidates are within
    their dead zone, nothing is sent, and the time of the last
    transmission and both last sent values stay as they were (the gate
    returns its state untouched, so the iteration only moved the smoothed
    values).  In any iteration the time of the last transmission moves,
    to the clock of the frame, only when a message is sent. *)
Theorem both_suppressed_changes_nothing :
  forall (F : Type) (N : PyNumber F) (power : F -> F -> result F)
         (cfg : Config F) (st : State F) (cx cy now : F) (tg cand : F * F),
    targets power cfg cx cy = Ok tg ->
    candidates cfg (ema (sm_size st) (fst tg) (SMOOTH_ALPHA cfg))
                   (ema (sm_decay st) (snd tg) (SMOOTH_ALPHA cfg)) = Ok cand ->
    rate_eligible cfg st now = Ok true ->
    within_deadzone (last_sent_size st) (fst cand)
      (fst (SIZE_RANGE cfg)) (snd (SIZE_RANGE cfg)) (DEADZONE_NORM cfg) = true ->
    within_deadzone (last_sent_decay st) (snd cand)
      (fst (DECAY_RANGE cfg)) (snd (DECAY_RANGE cfg)) (DEADZONE_NORM cfg) = true ->
    gate cfg st cand now = Ok (st, [])
    /\ (exists st',
          step power cfg st (hand cx cy now) = Ok (st', [])
          /\ last_tx_time st' = last_tx_time st
          /\ last_sent_size st' = last_sent_size st
          /\ last_sent_decay st' = last_sent_decay st)
    /\ (forall fr st' msgs,
          step power cfg st fr = Ok (st', msgs) ->
          last_tx_time st' = last_tx_time st
          \/ (msgs <> [] /\ last_tx_time st' = clock fr)).
Proof.
  intros F N power cfg st cx cy now tg cand Etg Ecand El Ws Wd.
  assert (T : forall s : State F,
             last_sent_size s = last_sent_size st ->
             last_sent_decay s = last_sent_decay st ->
             transmit cfg s cand now = (s, [])).
  { intros s E1 E2. apply transmit_silent.
    - unfold send_size. rewrite E1, Ws. reflexivity.
    - unfold send_decay. rewrite E2, Wd. reflexivity. }
  split; [|split].
  - rewrite (gate_open _ _ _ _ El). f_equal. apply T; reflexivity.
  - exists (smooth cfg st tg). split; [|repeat split].
    unfold step. simpl. rewrite Etg. simpl. rewrite Ecand. simpl.
    rewrite (gate_open cfg (smooth cfg st tg) cand now El).
    f_equal. apply T; reflexivity.
  - intros fr st' msgs E.
    destruct (step_last_tx_time power cfg st st' fr msgs E)
      as [[_ L]|(Nn & L & _)]; auto.
Qed.

(** The iteration of the second sample run is the one [centred] records. *)
Lemma centred_reached :
  main power_linear CONFIG_linear [hand 0.5 0.5 1000]%float
  = Ok (centred, [(1000, [(addr_size, 55); (addr_decay, 0.891)])]%float).
Proof. vm_compute. reflexivity. Qed.

Lemma both_suppressed_changes_nothing_witness :
  gate CONFIG_linear centred (55, 0.891)%float 1001%float = Ok (centred, [])
  /\ exists st',
      step power_linear CONFIG_linear centred (hand 0.5 0.5 1001)%float
      = Ok (st', [])
      /\ last_tx_time st' = last_tx_time centred
      /\ last_sent_size st' = last_sent_size centred
      /\ last_sent_decay st' = last_sent_decay centred.
Proof.
  refine ((fun C => conj (proj1 C) (proj1 (proj2 C)))
            (both_suppressed_changes_nothing float float_number power_linear
               CONFIG_linear centred 0.5 0.5 1001 (55, 0.89) (55, 0.891)
               _ _ _ _ _))%float;
    vm_compute; reflexivity.
Defined.

(** C3: the dead-zone test.  A candidate is suppressed exactly when the
    channel has a last sent value and the candidate is closer to it than
    the dead-zone fraction of the channel's range; a channel that has sent
    nothing yet is never suppressed; on a rate-eligible iteration each
    channel, independently, is either suppressed (no message, last sent
    value kept) or transmitted (its message sent, last sent value set to
    the candidate).  With fraction 0.02 and range (10, 100) the threshold
    is 1.8 and candidate 56.5 after 55.0 (distance 1.5) is suppressed. *)
Theorem deadzone_test :
  (forall (F : Type) (N : PyNumber F) (prev : option F) (cur rmin rmax dz : F),
      (within_deadzone prev cur rmin rmax dz = true <->
       exists p, prev = Some p
                 /\ ltb (absolute (sub cur p)) (mul dz (sub rmax rmin)) = true)
      /\ within_deadzone None cur rmin rmax dz = false)
  /\ (forall (F : Type) (N : PyNumber F) (power : F -> F -> result F)
             (cfg : Config F) (st : State F) (cx cy now : F) (tg cand : F * F),
        targets power cfg cx cy = Ok tg ->
        candidates cfg (ema (sm_size st) (fst tg) (SMOOTH_ALPHA cfg))
                       (ema (sm_decay st) (snd tg) (SMOOTH_ALPHA cfg))
        = Ok cand ->
        rate_eligible cfg st now = Ok true ->
        exists st' msgs,
          step power cfg st (hand cx cy now) = Ok (st', msgs)
          /\ (if within_deadzone (last_sent_size st) (fst cand)
                   (fst (SIZE_RANGE cfg)) (snd (SIZE_RANGE cfg))
                   (DEADZONE_NORM cfg)
              then last_sent_size st' = last_sent_size st
                   /\ forall v, ~ In (addr_size, v) msgs
              else last_sent_size st' = Some (fst cand)
                   /\ In (addr_size, fst cand) msgs)
          /\ (if within_deadzone (last_sent_decay st) (snd cand)
                   (fst (DECAY_RANGE cfg)) (snd (DECAY_RANGE cfg))
                   (DEADZONE_NORM cfg)
              then last_sent_decay st' = last_sent_decay st
                   /\ forall v, ~ In (addr_decay, v) msgs
              else last_sent_decay st' = Some (snd cand)
                   /\ In (addr_decay, snd cand) msgs))
  /\ (mul 0.02 (sub 100 10) = 1.8
      /\ absolute (sub 56.5 55) = 1.5
      /\ within_deadzone (Some 55) 56.5 10 100 0.02 = true)%float.
Proof.
  split; [|split].
  - intros F N prev cur rmin rmax dz. split; [|reflexivity].
    destruct prev as [p|]; simpl; split.
    + intros E. exists p; auto.
    + intros (q & Eq & E). inversion Eq; subst; exact E.
    + discriminate.
    + intros (q & Eq & _). discriminate.
  - intros F N power cfg st cx cy now tg cand Etg Ecand El.
    unfold step. simpl. rewrite Etg. simpl. rewrite Ecand. simpl.
    rewrite (gate_open cfg (smooth cfg st tg) cand now El).
    unfold transmit, send_size, send_decay. simpl.
    eexists; eexists; split; [reflexivity|].
    destruct (within_deadzone (last_sent_size st) _ _ _ _),
             (within_deadzone (last_sent_decay st) _ _ _ _);
      simpl; repeat split; auto; intros v [E|E]; try discriminate; auto.
  - vm_compute. repeat split.
Qed.

Lemma deadzone_test_witness :
  exists st' msgs,
    step power_linear CONFIG_linear centred (hand 0.7 0.5 1001)%float
    = Ok (st', msgs)
    /\ (last_sent_size st' = Some 57%float /\ In (addr_size, 57%float) msgs)
    /\ (last_sent_decay st' = last_sent_decay centred
        /\ forall v, ~ In (addr_decay, v) msgs).
Proof.
  exact (proj1 (proj2 deadzone_test) float float_number power_linear
           CONFIG_linear centred 0.7%float 0.5%float 1001%float
           (73, 0.89)%float (57, 0.891)%float eq_refl eq_refl eq_refl).
Defined.

(** ** The smoother *)

(** C6: the recurrence of the smoother.  For each channel the first
    target fed (smoothed state empty) becomes the smoothed value as it is,
    and each later target [t] turns the smoothed value [s] into
    [alpha * t + (1 - alpha) * s]; both channels use the one constant
    SMOOTH_ALPHA, which is 0.12, inside (0, 1]; and the state an
    iteration on a detection leaves holds exactly these values. *)
Theorem smoother_recurrence :
  forall (F : Type) (N : PyNumber F) (power : F -> F -> result F)
         (cfg : Config F) (st : State F),
    let alpha := SMOOTH_ALPHA cfg in
    let next (s : option F) (t : F) :=
      match s with
      | None => t
      | Some v => add (mul alpha t) (mul (sub one alpha) v)
      end in
    (forall tg : F * F,
        sm_size (smooth cfg st tg) = Some (next (sm_size st) (fst tg))
        /\ sm_decay (smooth cfg st tg) = Some (next (sm_decay st) (snd tg)))
    /\ (forall cx cy now st' msgs,
          step power cfg st (hand cx cy now) = Ok (st', msgs) ->
          exists tg,
            targets power cfg cx cy = Ok tg
            /\ sm_size st' = Some (next (sm_size st) (fst tg))
            /\ sm_decay st' = Some (next (sm_decay st) (snd tg)))
    /\ (ltb 0 (SMOOTH_ALPHA CONFIG) = true
        /\ leb (SMOOTH_ALPHA CONFIG) 1 = true)%float.
Proof.
  intros F N power cfg st alpha next. split; [|split].
  - intros tg. split; reflexivity.
  - intros cx cy now st' msgs E.
    destruct (step_hand_inv power cfg st st' (hand cx cy now) cx cy msgs
                eq_refl E) as (tg & cand & ok & Etg & _ & _ & Er).
    exists tg. split; auto.
    destruct ok; inversion Er; subst; split; reflexivity.
  - split; reflexivity.
Qed.

Lemma smoother_recurrence_witness :
  exists tg,
    targets power_linear CONFIG_linear 0.7%float 0.5%float = Ok tg
    /\ Some 57.159999999999997%float
       = Some (add (mul 0.12 (fst tg)) (mul (sub 1 0.12) 55))%float
    /\ Some 0.89%float
       = Some (add (mul 0.12 (snd tg)) (mul (sub 1 0.12) 0.89))%float.
Proof.
  exact (proj1 (proj2 (smoother_recurrence float float_number power_linear
                         CONFIG_linear centred))
           0.7%float 0.5%float 1001%float
           {| sm_size := Some 57.159999999999997%float;
              sm_decay := Some 0.89%float;
              last_tx_time := 1001%float;
              last_sent_size := Some 57%float;
              last_sent_decay := Some 0.891%float |}
           [(addr_size, 57%float)] eq_refl).
Defined.

(** ** The rate limiter *)

(** C1, as stated, fails: [last_tx_time] starts at [0.0], not empty, so
    before any transmission an iteration whose clock reads less than
    [1/MAX_UPS] is not rate-eligible and sends nothing. *)
Lemma first_tick_not_always_eligible :
  rate_eligible CONFIG init 0.01%float = Ok false
  /\ spec_rate_eligible CONFIG None 0.01%float = Ok true
  /\ main power_linear CONFIG_linear [hand 0.5 0.5 0.01]%float
     = Ok ({| sm_size := Some 55%float;
              sm_decay := Some 0.89%float;
              last_tx_time := 0%float;
              last_sent_size := None;
              last_sent_decay := None |}, []).
Proof. vm_compute. repeat split. Qed.

(** C1, amended: the time of the last transmission is never empty; it
    starts at [0.0], stays there as long as nothing has been transmitted,
    and an iteration moves it, to its own clock, exactly when it sends
    something.  An iteration is rate-eligible iff
    [now - last_tx_time >= 1/MAX_UPS], which is the rule of the
    specification at a non-empty lastTransmitTime; before any transmission
    that reads [now - 0.0 >= 1/MAX_UPS].  An iteration that is not
    rate-eligible sends nothing and leaves the gate's state as it was. *)
Theorem rate_eligibility :
  forall (F : Type) (N : PyNumber F) (power : F -> F -> result F)
         (cfg : Config F) (st : State F) (now : F),
    rate_eligible cfg st now
    = spec_rate_eligible cfg (Some (last_tx_time st)) now
    /\ (forall frames st0,
          main power cfg frames = Ok (st0, []) ->
          last_tx_time st0 = zero
          /\ rate_eligible cfg st0 now = spec_rate_eligible cfg (Some zero) now)
    /\ (forall period,
          div one (MAX_UPS cfg) = Ok period ->
          rate_eligible cfg st now = Ok (leb period (sub now (last_tx_time st))))
    /\ (forall cand,
          rate_eligible cfg st now = Ok false ->
          gate cfg st cand now = Ok (st, []))
    /\ (forall fr st' msgs,
          step power cfg st fr = Ok (st', msgs) ->
          (msgs = [] /\ last_tx_time st' = last_tx_time st)
          \/ (msgs <> [] /\ last_tx_time st' = clock fr
              /\ rate_eligible cfg st (clock fr) = Ok true)).
Proof.
  intros F N power cfg st now. split; [reflexivity|]. split; [|repeat split].
  - intros frames st0 E.
    pose proof (main_loop_silent power cfg frames init st0 E) as L.
    split; [exact L|]. unfold rate_eligible. rewrite L. reflexivity.
  - intros period E. unfold rate_eligible. rewrite E. reflexivity.
  - intros cand. apply gate_closed.
  - intros fr st' msgs. apply step_last_tx_time.
Qed.

Lemma rate_eligibility_witness :
  rate_eligible CONFIG centred 1000.01%float
  = Ok (leb (1 / 30) (sub 1000.01 1000))%float
  /\ gate CONFIG centred (57, 0.891)%float 1000.01%float = Ok (centred, []).
Proof.
  split.
  - exact (proj1 (proj2 (proj2 (rate_eligibility float float_number
             power_linear CONFIG centred 1000.01%float)))
             (1 / 30)%float eq_refl).
  - exact (proj1 (proj2 (proj2 (proj2 (rate_eligibility float float_number
             power_linear CONFIG centred 1000.01%float))))
             (57, 0.891)%float eq_refl).
Defined.

(** ** Configuration *)




(** ** The rate limiter across a run *)

Section RateLimiter.

Context {F : Type} `{PyNumber F}.
Variable power : F -> F -> result F.
Variable cfg : Config F.

(** An iteration that sends nothing leaves the limiter as it was: every
    later time is rate-eligible after it iff it was before it. *)
Lemma silent_step_keeps_limiter (st st' : State F) (fr : Frame F) :
  step power cfg st fr = Ok (st', []) ->
  last_tx_time st' = last_tx_time st
  /\ forall t, rate_eligible cfg st' t = rate_eligible cfg st t.
Proof.
  intros E.
  destruct (step_last_tx_time power cfg st st' fr [] E) as [[_ L]|[N _]].
  - split; auto. intros t. unfold rate_eligible. rewrite L. reflexivity.
  - now elim N.
Qed.

(** The time of every transmission of a run is the clock of one of its
    frames. *)
Lemma main_loop_log_clocks :
  forall (frames : list (Frame F)) (st st' : State F)
         (log : list (Transmission F)),
    main_loop power cfg st frames = Ok (st', log) ->
    forall a, In a log -> In (fst a) (map clock frames).
Proof.
  induction frames as [|fr rest IH]; simpl; intros st st' log E a I.
  - inversion E; subst. destruct I.
  - split_loop E st1 msgs st2 log2 Es Er.
    destruct msgs as [|m ms].
    + right. exact (IH st1 st' log2 Er a I).
    + destruct I as [<-|I]; [left; reflexivity|].
      right. exact (IH st1 st' log2 Er a I).
Qed.

Variable P : F -> Prop.
Hypothesis arithmetic : monotone_arithmetic F P.

Lemma separated_earlier (t0 t1 t2 : F) :
  P t0 -> P t1 -> P t2 ->
  leb t0 t1 = true -> separated cfg t1 t2 -> separated cfg t0 t2.
Proof.
  destruct arithmetic as [Tr Mo].
  intros P0 P1 P2 L (p & Ep & Lp). exists p. split; auto.
  apply (Tr _ (sub t2 t1)); auto.
Qed.

(** With clocks in [P] that never go back, the transmissions of a run
    are pairwise separated, and separated from the time the limiter
    started with when that time is in [P] and not after the run's
    clocks. *)
Lemma main_loop_all_separated :
  forall (frames : list (Frame F)) (st st' : State F)
         (log : list (Transmission F)),
    Forall P (map clock frames) ->
    nondecreasing frames ->
    main_loop power cfg st frames = Ok (st', log) ->
    all_separated cfg log
    /\ (P (last_tx_time st) ->
        (forall fr, In fr frames -> leb (last_tx_time st) (clock fr) = true) ->
        Forall (fun a => separated cfg (last_tx_time st) (fst a)) log).
Proof.
  induction frames as [|fr rest IH]; simpl; intros st st' log D S E.
  - inversion E; subst. split; constructor.
  - split_loop E st1 msgs st2 log2 Es Er.
    unfold nondecreasing in S. simpl in S.
    apply StronglySorted_inv in S as [S C].
    apply Forall_cons_iff in D as [Dfr D].
    destruct (IH st1 st' log2 D S Er) as [Pw Q0].
    pose proof (main_loop_log_clocks _ _ _ _ Er) as K2.
    destruct (step_last_tx_time power cfg st st1 fr msgs Es)
      as [[-> L]|(N & L & G)].
    + split; auto. intros P0 B. rewrite <- L. apply Q0.
      * rewrite L; exact P0.
      * intros f I. rewrite L. apply B. right; exact I.
    + destruct msgs as [|m ms]; [now elim N|].
      assert (A : separated cfg (last_tx_time st) (clock fr)).
      { unfold rate_eligible in G. apply bind_ok in G as (p & Ep & G).
        exists p; split; auto. congruence. }
      assert (R : Forall (fun a => separated cfg (clock fr) (fst a)) log2).
      { rewrite <- L. apply Q0.
        - rewrite L; exact Dfr.
        - intros f I. rewrite L.
          rewrite Forall_forall in C. apply C. apply in_map. exact I. }
      split.
      * constructor; auto.
      * intros P0 B. constructor; auto.
        rewrite Forall_forall in R, D |- *. intros a I.
        apply (separated_earlier _ (clock fr)); auto.
Qed.

End RateLimiter.

(** Exact rationals are such an arithmetic, on every value. *)
Lemma fraction_monotone : monotone_arithmetic Q (fun _ => True).
Proof.
  split; simpl.
  - intros a b c L1 L2. apply Qle_bool_iff in L1, L2. apply Qle_bool_iff.
    apply (Qle_trans _ b); auto.
  - intros a b c _ _ _ L. apply Qle_bool_iff in L. apply Qle_bool_iff. lra.
Qed.


Lemma exact_frames_nondecreasing : nondecreasing exact_frames.
Proof. unfold nondecreasing. simpl. repeat constructor. Qed.


(** ** Rounding to the grid *)

Lemma round_half_even_scale (n d c : Z) :
  (0 < d)%Z -> (0 < c)%Z ->
  round_half_even (n * c) (d * c) = round_half_even n d.
Proof.
  intros Hd Hc. unfold round_half_even.
  rewrite Z.div_mul_cancel_r by lia.
  rewrite Zmult_mod_distr_r.
  replace (2 * (n mod d * c))%Z with (2 * (n mod d) * c)%Z by ring.
  rewrite <- Zmult_compare_compat_r by lia. reflexivity.
Qed.

(** [round] does not depend on how the fraction is written. *)
Lemma round_half_even_Qeq (p q : Q) :
  p == q ->
  round_half_even (Qnum p) (Zpos (Qden p))
  = round_half_even (Qnum q) (Zpos (Qden q)).
Proof.
  intros E. unfold Qeq in E.
  rewrite <- (round_half_even_scale (Qnum p) (Zpos (Qden p)) (Zpos (Qden q)))
    by lia.
  rewrite <- (round_half_even_scale (Qnum q) (Zpos (Qden q)) (Zpos (Qden p)))
    by lia.
  rewrite E. f_equal. lia.
Qed.

Lemma round_half_even_integer (k : Z) : round_half_even k 1 = k.
Proof.
  unfold round_half_even. rewrite Z.div_1_r, Z.mod_1_r. reflexivity.
Qed.

(** On a tie the even neighbour wins. *)
Lemma round_half_even_tie (n d : Z) :
  (2 * (n mod d) = d)%Z ->
  round_half_even n d = (if Z.even (n / d) then n / d else n / d + 1)%Z
  /\ Z.even (round_half_even n d) = true.
Proof.
  intros T. unfold round_half_even.
  rewrite (proj2 (Z.compare_eq_iff _ _) T).
  split; [reflexivity|].
  destruct (Z.even (n / d)) eqn:E; [exact E|].
  rewrite Z.even_add, E. reflexivity.
Qed.

Lemma fraction_quantize (x s : Q) :
  ~ s == 0 ->
  quantize x s
  = Ok (inject_Z (round_half_even (Qnum (x / s)) (Zpos (Qden (x / s)))) * s).
Proof.
  intros Hs. unfold quantize. simpl. unfold Fraction.div.
  destruct (Qeq_bool s 0) eqn:E; [|reflexivity].
  apply Qeq_bool_iff in E. contradiction.
Qed.

(** A point of the grid is quantized to itself. *)
Lemma fraction_quantize_grid (k : Z) (s : Q) :
  ~ s == 0 -> quantize (inject_Z k * s) s = Ok (inject_Z k * s).
Proof.
  intros Hs. rewrite (fraction_quantize _ _ Hs).
  rewrite (round_half_even_Qeq (inject_Z k * s / s) (inject_Z k)).
  - simpl. rewrite round_half_even_integer. reflexivity.
  - field. exact Hs.
Qed.

(** C10: [quantize] rounds an exact half to the even multiple of the
    step, as Python's [round] does: on floats quantize(0.25, 0.5) is 0.0
    and quantize(0.75, 0.5) is 1.0 (and 1.25 goes down to 1.0, 1.75 up to
    2.0, where rounding half away from zero would give 0.5 and 1.5 for
    0.25 and 1.25); in general [round] sends every tie [n/d] to its even
    neighbour, so over exact rationals the value [(k + 1/2) * step] is
    quantized to [k * step] when [k] is even and to [(k + 1) * step] when
    [k] is odd. *)
Theorem quantize_half_to_even :
  (quantize 0.25 0.5 = Ok 0 /\ quantize 0.75 0.5 = Ok 1
   /\ quantize 1.25 0.5 = Ok 1 /\ quantize 1.75 0.5 = Ok 2
   /\ round 0.5 = Ok 0%Z /\ round 1.5 = Ok 2%Z /\ round 2.5 = Ok 2%Z
   /\ round (-0.5) = Ok 0%Z /\ round (-1.5) = Ok (-2)%Z)%float
  /\ (forall n d : Z,
        (2 * (n mod d) = d)%Z ->
        round_half_even n d = (if Z.even (n / d) then n / d else n / d + 1)%Z
        /\ Z.even (round_half_even n d) = true)
  /\ (forall (x : float) (s : bool) (m : positive) (e : Z),
        Prim2SF x = S754_finite s m e ->
        (e < 0)%Z ->
        (2 * (cond_Zopp s (Zpos m) mod 2 ^ (- e)) = 2 ^ (- e))%Z ->
        exists k, round x = Ok k /\ Z.even k = true)
  /\ (forall (k : Z) (step : Q),
        ~ step == 0 ->
        quantize ((inject_Z k + (1 # 2)) * step) step
        = Ok (inject_Z (if Z.even k then k else k + 1) * step)).
Proof.
  split; [|split; [|split]].
  - vm_compute. repeat split.
  - exact round_half_even_tie.
  - intros x s m e E Neg T. simpl. unfold Float.round. rewrite E.
    destruct (0 <=? e)%Z eqn:L; [apply Z.leb_le in L; lia|].
    eexists. split; [reflexivity|].
    apply round_half_even_tie. exact T.
  - intros k step Hs. rewrite (fraction_quantize _ _ Hs).
    rewrite (round_half_even_Qeq _ (2 * k + 1 # 2)).
    + destruct (round_half_even_tie (2 * k + 1) 2) as [E _].
      { replace (2 * k + 1)%Z with (1 + k * 2)%Z by ring.
        rewrite Z.mod_add by lia. reflexivity. }
      cbn [Qnum Qden]. rewrite E.
      replace ((2 * k + 1) / 2)%Z with k; [reflexivity|].
      replace (2 * k + 1)%Z with (1 + k * 2)%Z by ring.
      rewrite Z.div_add by lia. reflexivity.
    + apply (Qeq_trans _ (inject_Z k + (1 # 2))); [field; exact Hs|].
      unfold Qeq, Qplus, inject_Z; cbn [Qnum Qden]; lia.
Qed.

Lemma quantize_half_to_even_witness :
  round_half_even 5 2 = 2%Z /\ Z.even (round_half_even 5 2) = true
  /\ quantize ((inject_Z 3 + (1 # 2)) * (1 # 2)) (1 # 2)
     = Ok (inject_Z 4 * (1 # 2)).
Proof.
  split; [|split].
  - exact (proj1 (proj1 (proj2 quantize_half_to_even) 5%Z 2%Z eq_refl)).
  - exact (proj2 (proj1 (proj2 quantize_half_to_even) 5%Z 2%Z eq_refl)).
  - refine (proj2 (proj2 (proj2 quantize_half_to_even)) 3%Z (1 # 2) _).
    intros E; discriminate E.
Defined.

(** The grid check carries over to every float that lands on a checked
    point. *)
Lemma grid_fixed_upto_point (s : float) (K : nat) (k : Z) :
  grid_fixed_upto s K = true ->
  (Z.abs k <= Z.of_nat K)%Z ->
  grid_point_fixed s k = true.
Proof.
  intros G B. unfold grid_fixed_upto in G. rewrite forallb_forall in G.
  specialize (G (Z.abs_nat k)).
  assert (I : In (Z.abs_nat k) (seq 0 (S K))) by (apply in_seq; lia).
  apply G in I. apply andb_true_iff in I as [I1 I2].
  rewrite Zabs2Nat.id_abs in I1, I2.
  destruct (Z.abs_eq_or_opp k) as [E|E]; rewrite E in *; auto.
  now rewrite Z.opp_involutive in I2.
Qed.

Lemma float_quantize_idempotent (s : float) (K : nat) :
  grid_fixed_upto s K = true ->
  forall (x : float) (k : Z),
    (d <- div x s ;; round d) = Ok k ->
    (Z.abs k <= Z.of_nat K)%Z ->
    exists q q',
      quantize x s = Ok q /\ quantize q s = Ok q' /\ PrimFloat.eqb q' q = true.
Proof.
  intros G x k E B.
  pose proof (grid_fixed_upto_point s K k G B) as Pt.
  unfold grid_point_fixed in Pt.
  destruct (of_int k) as [kf|e] eqn:Ek; [|discriminate].
  destruct (quantize (mul kf s) s) as [q'|e] eqn:Eq; [|discriminate].
  exists (mul kf s), q'. split; [|split; auto].
  unfold quantize.
  destruct (div x s) as [d|e]; simpl in *; [|discriminate].
  rewrite E. simpl. rewrite Ek. reflexivity.
Qed.

(** The grids of the two configured steps, 512 points each way: sizes up
    to 256 and decays up to 1.536, beyond both configured ranges. *)
Lemma size_grid_fixed : grid_fixed_upto (STEP_SIZE CONFIG) 512 = true.
Proof. vm_compute. reflexivity. Qed.

Lemma decay_grid_fixed : grid_fixed_upto (STEP_DECAY CONFIG) 512 = true.
Proof. vm_compute. reflexivity. Qed.




(** ** The smoother stays between its targets *)

Lemma ema_between (a p t lo hi : Q) :
  0 <= a -> a <= 1 -> lo <= p -> p <= hi -> lo <= t -> t <= hi ->
  lo <= a * t + (1 - a) * p /\ a * t + (1 - a) * p <= hi.
Proof. intros. split; nra. Qed.

Lemma ema_within (a lo hi t : Q) (s : option Q) :
  0 <= a -> a <= 1 ->
  within lo hi s -> lo <= t /\ t <= hi ->
  within lo hi (Some (ema s t a)).
Proof.
  intros A0 A1 W [T0 T1] v E. inversion E; subst; clear E.
  destruct s as [p|]; simpl; [|auto].
  destruct (W p eq_refl). apply ema_between; auto.
Qed.

Lemma least_below (ts : list Q) :
  forall t, least t ts <= t /\ forall x, In x ts -> least t ts <= x.
Proof.
  unfold least. induction ts as [|y ts IH]; simpl; intros t.
  - split; [apply Qle_refl|intros x []].
  - destruct (IH (Qmin t y)) as [L1 L2]. split.
    + apply (Qle_trans _ _ _ L1), Q.le_min_l.
    + intros x [->|I]; auto. apply (Qle_trans _ _ _ L1), Q.le_min_r.
Qed.

Lemma greatest_above (ts : list Q) :
  forall t, t <= greatest t ts /\ forall x, In x ts -> x <= greatest t ts.
Proof.
  unfold greatest. induction ts as [|y ts IH]; simpl; intros t.
  - split; [apply Qle_refl|intros x []].
  - destruct (IH (Qmax t y)) as [L1 L2]. split.
    + apply (Qle_trans _ (Qmax t y)); auto. apply Q.le_max_l.
    + intros x [->|I]; auto.
      apply (Qle_trans _ (Qmax t x)); auto. apply Q.le_max_r.
Qed.

Lemma smoothed_fold_within (a lo hi : Q) :
  0 <= a -> a <= 1 ->
  forall (ts : list Q) (s0 : Q),
    lo <= s0 /\ s0 <= hi ->
    (forall x, In x ts -> lo <= x /\ x <= hi) ->
    exists s, fold_left (fun s t => Some (ema s t a)) ts (Some s0) = Some s
              /\ lo <= s /\ s <= hi.
Proof.
  intros A0 A1. induction ts as [|t ts IH]; simpl; intros s0 B0 B.
  - exists s0; auto.
  - apply IH; auto. apply ema_between; try tauto; apply B; auto.
Qed.

Section ExactRuns.

Variable power : Q -> Q -> result Q.
Variable cfg : Config Q.

Lemma step_smoothed (st st' : State Q) (fr : Frame Q) (msgs : list (Msg Q)) :
  step power cfg st fr = Ok (st', msgs) ->
  match detected fr with
  | None => st' = st
  | Some (cx, cy) =>
      exists tg,
        targets power cfg cx cy = Ok tg
        /\ sm_size st' = Some (ema (sm_size st) (fst tg) (SMOOTH_ALPHA cfg))
        /\ sm_decay st' = Some (ema (sm_decay st) (snd tg) (SMOOTH_ALPHA cfg))
  end.
Proof.
  intros E. destruct (detected fr) as [[cx cy]|] eqn:D.
  - destruct (step_hand_inv power cfg st st' fr cx cy msgs D E)
      as (tg & cand & ok & Etg & _ & _ & Er).
    exists tg. split; auto.
    destruct ok; inversion Er; subst; split; reflexivity.
  - rewrite (step_no_hand power cfg st fr D) in E. congruence.
Qed.

Lemma main_loop_within (lo hi lo' hi' : Q) :
  0 <= SMOOTH_ALPHA cfg -> SMOOTH_ALPHA cfg <= 1 ->
  forall (frames : list (Frame Q)) (st st' : State Q)
         (log : list (Transmission Q)),
    targets_within power cfg frames lo hi lo' hi' ->
    within lo hi (sm_size st) -> within lo' hi' (sm_decay st) ->
    main_loop power cfg st frames = Ok (st', log) ->
    within lo hi (sm_size st') /\ within lo' hi' (sm_decay st').
Proof.
  intros A0 A1.
  induction frames as [|fr rest IH]; simpl; intros st st' log T Ws Wd E.
  - inversion E; subst; auto.
  - split_loop E st1 msgs st2 log2 Es Er.
    apply (IH st1 st' log2); auto.
    + intros f cx cy tg I. apply T. right; exact I.
    + apply step_smoothed in Es. destruct (detected fr) as [[cx cy]|] eqn:D.
      * destruct Es as (tg & Etg & -> & _).
        apply ema_within; auto.
        apply (T fr cx cy tg (or_introl eq_refl) D Etg).
      * subst; auto.
    + apply step_smoothed in Es. destruct (detected fr) as [[cx cy]|] eqn:D.
      * destruct Es as (tg & Etg & _ & ->).
        apply ema_within; auto.
        apply (T fr cx cy tg (or_introl eq_refl) D Etg).
      * subst; auto.
Qed.

End ExactRuns.

(** C8, as stated, fails on floats: each update rounds, and the rounded
    value can fall outside the targets.  Two frames with the same
    detection feed the size smoother the target 20.98 twice, and leave it
    at 20.979999999999997, below every target it was ever fed; fed 11.1
    twice the smoother holds 11.099999999999998. *)
Lemma smoother_leaves_its_targets :
  (targets power_linear CONFIG_linear 0.122 0.5 = Ok (20.98, 0.89)
   /\ main power_linear CONFIG_linear [hand 0.122 0.5 1000; hand 0.122 0.5 1001]
      = Ok ({| sm_size := Some 20.979999999999997;
               sm_decay := Some 0.89;
               last_tx_time := 1000;
               last_sent_size := Some 21;
               last_sent_decay := Some 0.891 |},
            [(1000, [(addr_size, 21); (addr_decay, 0.891)])])
   /\ ltb 20.979999999999997 20.98 = true
   /\ smoothed_after 0.12 [11.1; 11.1] = Some 11.099999999999998
   /\ ltb 11.099999999999998 11.1 = true)%float.
Proof. vm_compute. repeat split. Qed.

(** C8, amended: over exact rationals, for any alpha in (0, 1], a
    smoothed value, once set, lies between the least and the greatest of
    the targets fed to its smoother: in every run of [main], for each
    channel, any interval that holds all the targets of the run holds the
    final smoothed value.  (On floats each update is rounded, and the
    smoothed value can leave that interval by the rounding error.) *)
Theorem smoothed_within_targets :
  forall (power : Q -> Q -> result Q) (cfg : Config Q),
    0 < SMOOTH_ALPHA cfg -> SMOOTH_ALPHA cfg <= 1 ->
    (forall (t : Q) (ts : list Q),
        exists s,
          smoothed_after (SMOOTH_ALPHA cfg) (t :: ts) = Some s
          /\ least t ts <= s /\ s <= greatest t ts)
    /\ (forall (frames : list (Frame Q)) (st : State Q)
               (log : list (Transmission Q)) (lo hi lo' hi' : Q),
          main power cfg frames = Ok (st, log) ->
          targets_within power cfg frames lo hi lo' hi' ->
          within lo hi (sm_size st) /\ within lo' hi' (sm_decay st)).
Proof.
  intros power cfg A0 A1. apply Qlt_le_weak in A0. split.
  - intros t ts. unfold smoothed_after. simpl.
    destruct (least_below ts t) as [L1 L2].
    destruct (greatest_above ts t) as [G1 G2].
    apply smoothed_fold_within; auto.
  - intros frames st log lo hi lo' hi' E T.
    apply (main_loop_within power cfg lo hi lo' hi' A0 A1 frames init st log);
      auto; intros v D; discriminate D.
Qed.

Lemma exact_frames_targets :
  targets_within power_linear CONFIG_exact exact_frames
    10 100 (80 # 100) (98 # 100).
Proof.
  intros fr cx cy tg I D T. simpl in I.
  repeat (destruct I as [<-|I]; [try discriminate D|]); try contradiction;
    inversion D; subst; vm_compute in T; inversion T; subst;
    repeat split; discriminate.
Qed.

Lemma smoothed_within_targets_witness :
  (exists s,
      smoothed_after (12 # 100) [55; 73; 91] = Some s
      /\ least 55 [73; 91] <= s /\ s <= greatest 55 [73; 91])
  /\ exists st log,
      main power_linear CONFIG_exact exact_frames = Ok (st, log)
      /\ within 10 100 (sm_size st)
      /\ within (80 # 100) (98 # 100) (sm_decay st).
Proof.
  split.
  - refine (proj1 (smoothed_within_targets power_linear CONFIG_exact
                     eq_refl _) 55 [73; 91]).
    intros E; discriminate E.
  - eexists. eexists. split; [vm_compute; reflexivity|].
    refine (proj2 (smoothed_within_targets power_linear CONFIG_exact
                     eq_refl _) exact_frames _ _ 10 100 (80 # 100) (98 # 100)
              _ exact_frames_targets).
    + intros E; discriminate E.
    + vm_compute; reflexivity.
Defined.

(** * Further properties of the helpers and of whole runs *)

(** ** Comparisons of floats *)

Lemma float_ltb_leb (x y : float) :
  PrimFloat.ltb x y = true -> PrimFloat.leb x y = true.
Proof.
  rewrite ltb_spec, leb_spec. unfold SFltb, SFleb.
  destruct (SFcompare (Prim2SF x) (Prim2SF y)) as [[]|]; congruence.
Qed.

Lemma float_leb_cases (x y : float) :
  PrimFloat.leb x y = true ->
  PrimFloat.ltb x y = true \/ PrimFloat.eqb x y = true.
Proof.
  rewrite ltb_spec, leb_spec, eqb_spec. unfold SFltb, SFleb, SFeqb.
  destruct (SFcompare (Prim2SF x) (Prim2SF y)) as [[]|]; auto; discriminate.
Qed.

Lemma SFcompare_refl (x : spec_float) :
  x <> S754_nan -> SFcompare x x = Some Eq.
Proof.
  destruct x as [s|s| |s m e]; simpl; intros N; try congruence.
  - destruct s; reflexivity.
  - rewrite Z.compare_refl, Pos.compare_cont_refl. destruct s; reflexivity.
Qed.

Lemma float_leb_eqb_refl (x y : float) :
  PrimFloat.leb x y = true -> PrimFloat.eqb y y = true.
Proof.
  rewrite leb_spec, eqb_spec. unfold SFleb, SFeqb. intros L.
  rewrite SFcompare_refl; [reflexivity|].
  intros E. rewrite E in L. destruct (Prim2SF x); discriminate.
Qed.

Lemma float_nan_ltb (x y : float) :
  PrimFloat.eqb x x = false -> PrimFloat.ltb x y = false.
Proof.
  rewrite eqb_spec, ltb_spec. unfold SFeqb, SFltb. intros N.
  destruct (Prim2SF x) as [s|s| |s m e] eqn:E; try reflexivity;
    rewrite SFcompare_refl in N; congruence.
Qed.

Lemma SFcompare_Eq_sym (x y : spec_float) :
  SFcompare x y = Some Eq -> SFcompare y x = Some Eq.
Proof.
  assert (A : forall m m', Pos.compare_cont Eq m' m
                           = CompOpp (Pos.compare_cont Eq m m'))
    by (intros; rewrite Pos.compare_cont_antisym; reflexivity).
  destruct x as [s|s| |s m e], y as [s'|s'| |s' m' e']; simpl;
    try destruct s; try destruct s'; try congruence;
    rewrite (Z.compare_antisym e e'), (A m m');
    destruct (e ?= e')%Z; simpl; try congruence;
    destruct (Pos.compare_cont Eq m m'); simpl; congruence.
Qed.

Lemma float_eqb_sym (x y : float) :
  PrimFloat.eqb x y = true -> PrimFloat.eqb y x = true.
Proof.
  rewrite !eqb_spec. unfold SFeqb.
  destruct (SFcompare (Prim2SF x) (Prim2SF y)) as [[]|] eqn:E; try discriminate.
  now rewrite (SFcompare_Eq_sym _ _ E).
Qed.

(** ** [clamp01] *)

(** X1: on floats [clamp01] returns a value in [0, 1] for every argument,
    infinities and NaN included; it is idempotent; it returns an argument
    that is already in [0, 1] (up to [==], the sign of zero apart); and it
    sends a NaN to 1.0. *)
Theorem clamp01_on_floats :
  forall x : float,
    (leb 0%float (clamp01 x) = true /\ leb (clamp01 x) 1%float = true)
    /\ clamp01 (clamp01 x) = clamp01 x
    /\ (leb 0%float x = true -> leb x 1%float = true ->
        PrimFloat.eqb (clamp01 x) x = true)
    /\ (PrimFloat.eqb x x = false -> clamp01 x = 1%float).
Proof.
  intros x. unfold clamp01, py_max, py_min. simpl.
  destruct (PrimFloat.ltb x 1) eqn:E1.
  - destruct (PrimFloat.ltb 0 x) eqn:E2.
    + repeat split.
      * apply float_ltb_leb, E2.
      * apply float_ltb_leb, E1.
      * rewrite E1, E2. reflexivity.
      * intros L0 _. apply (float_leb_eqb_refl _ _ L0).
      * intros N. rewrite (float_nan_ltb x 1 N) in E1. discriminate.
    + repeat split.
      * intros L0 _. destruct (float_leb_cases _ _ L0) as [L|L]; [congruence|exact L].
      * intros N. rewrite (float_nan_ltb x 1 N) in E1. discriminate.
  - repeat split.
    intros _ L1. destruct (float_leb_cases _ _ L1) as [L|L]; [congruence|].
    apply float_eqb_sym, L.
Qed.

Lemma clamp01_on_floats_witness :
  PrimFloat.eqb (clamp01 0.3%float) 0.3%float = true
  /\ clamp01 nan = 1%float.
Proof.
  split.
  - exact (proj1 (proj2 (proj2 (clamp01_on_floats 0.3%float)))
             eq_refl eq_refl).
  - exact (proj2 (proj2 (proj2 (clamp01_on_floats nan))) eq_refl).
Defined.

Lemma fraction_ltb_spec (x y : Q) : Fraction.ltb x y = true <-> x < y.
Proof.
  unfold Fraction.ltb. rewrite negb_true_iff, <- not_true_iff_false, Qle_bool_iff.
  split; [apply Qnot_le_lt | apply Qlt_not_le].
Qed.

Lemma fraction_ltb_false (x y : Q) : Fraction.ltb x y = false <-> y <= x.
Proof.
  unfold Fraction.ltb. rewrite negb_false_iff. apply Qle_bool_iff.
Qed.

Lemma clamp01_fraction (x : Q) :
  (0 <= clamp01 x /\ clamp01 x <= 1)
  /\ (0 <= x -> x <= 1 -> clamp01 x == x)
  /\ (x <= 0 -> clamp01 x == 0)
  /\ (1 <= x -> clamp01 x == 1).
Proof.
  unfold clamp01, py_max, py_min. simpl.
  destruct (Fraction.ltb x 1) eqn:E1;
    [apply fraction_ltb_spec in E1 | apply fraction_ltb_false in E1].
  - destruct (Fraction.ltb 0 x) eqn:E2;
      [apply fraction_ltb_spec in E2 | apply fraction_ltb_false in E2];
      repeat split; intros; try lra.
  - change (Fraction.ltb 0 1) with true. cbv iota.
    repeat split; intros; try lra.
Qed.

(** ** [lerp] and the targets *)

Lemma lerp_fraction (a b t : Q) :
  lerp a b 0 == a /\ lerp a b 1 == b
  /\ (a <= b -> 0 <= t -> t <= 1 -> a <= lerp a b t /\ lerp a b t <= b)
  /\ (b <= a -> 0 <= t -> t <= 1 -> b <= lerp a b t /\ lerp a b t <= a)
  /\ (forall u, a <= b -> t <= u -> lerp a b t <= lerp a b u).
Proof.
  unfold lerp. simpl. repeat split; intros; try ring; try nra.
Qed.

(** X2: over exact rationals [lerp a b t] is [a] at [t = 0] and [b] at
    [t = 1], stays between [a] and [b] for [t] in [0, 1] whichever way
    round the range is, and grows with [t] when [a <= b]. *)
Theorem lerp_interpolates :
  forall a b t : Q,
    lerp a b 0 == a /\ lerp a b 1 == b
    /\ (a <= b -> 0 <= t -> t <= 1 -> a <= lerp a b t /\ lerp a b t <= b)
    /\ (b <= a -> 0 <= t -> t <= 1 -> b <= lerp a b t /\ lerp a b t <= a)
    /\ (forall u, a <= b -> t <= u -> lerp a b t <= lerp a b u).
Proof. intros a b t. apply lerp_fraction. Qed.

Lemma lerp_interpolates_witness :
  10 <= lerp 10 100 (1 # 3) /\ lerp 10 100 (1 # 3) <= 100.
Proof.
  refine (proj1 (proj2 (proj2 (lerp_interpolates 10 100 (1 # 3)))) _ _ _);
    intros E; discriminate E.
Defined.

Lemma targets_in_ranges (power : Q -> Q -> result Q) (cfg : Config Q) :
  power_into_unit power ->
  fst (SIZE_RANGE cfg) <= snd (SIZE_RANGE cfg) ->
  fst (DECAY_RANGE cfg) <= snd (DECAY_RANGE cfg) ->
  forall cx cy tg,
    targets power cfg cx cy = Ok tg ->
    (fst (SIZE_RANGE cfg) <= fst tg /\ fst tg <= snd (SIZE_RANGE cfg))
    /\ (fst (DECAY_RANGE cfg) <= snd tg /\ snd tg <= snd (DECAY_RANGE cfg)).
Proof.
  intros U Rs Rd cx cy tg E. unfold targets, resp_curve in E.
  apply bind_ok in E as (nx & Ex & E). apply bind_ok in E as (ny & Ey & E).
  inversion E; subst; clear E. cbn [fst snd].
  destruct (clamp01_fraction cx) as [[C0 C1] _].
  destruct (clamp01_fraction (if INVERT_Y cfg then sub one cy else cy))
    as [[D0 D1] _].
  apply (U _ _ _ C0 C1) in Ex. apply (U _ _ _ D0 D1) in Ey.
  split; apply lerp_fraction; tauto.
Qed.

Lemma power_linear_into_unit : power_into_unit power_linear.
Proof. intros x g y L0 L1 E. inversion E; subst. split; assumption. Qed.

Lemma power_linear_total : power_total power_linear.
Proof. intros x g. exists x. reflexivity. Qed.



(** ** [quantize] and [within_deadzone] at their edges *)

Lemma round_half_even_near (n d : Z) :
  (0 < d)%Z ->
  (2 * (round_half_even n d * d - n) <= d
   /\ 2 * (n - round_half_even n d * d) <= d)%Z.
Proof.
  intros Hd. unfold round_half_even.
  pose proof (Z.div_mod n d ltac:(lia)) as E.
  pose proof (Z.mod_pos_bound n d Hd) as B.
  set (q := (n / d)%Z) in *. set (r := (n mod d)%Z) in *.
  assert (P : ((q + 1) * d = d * q + d)%Z) by ring.
  assert (P' : (q * d = d * q)%Z) by ring.
  destruct (Z.compare_spec (2 * r) d) as [C|C|C];
    try destruct (Z.even q); rewrite ?P, ?P'; lia.
Qed.

Lemma round_half_even_mono_num (n1 n2 d : Z) :
  (0 < d)%Z -> (n1 <= n2)%Z ->
  (round_half_even n1 d <= round_half_even n2 d)%Z.
Proof.
  intros Hd L. unfold round_half_even.
  pose proof (Z.div_mod n1 d ltac:(lia)) as E1.
  pose proof (Z.div_mod n2 d ltac:(lia)) as E2.
  pose proof (Z.mod_pos_bound n1 d Hd) as B1.
  pose proof (Z.mod_pos_bound n2 d Hd) as B2.
  pose proof (Z.div_le_mono n1 n2 d Hd L) as M.
  assert (Cs : (n1 / d < n2 / d \/ (n1 / d = n2 / d /\ n1 mod d <= n2 mod d))%Z)
    by nia.
  destruct (Z.compare_spec (2 * (n1 mod d)) d) as [C1|C1|C1];
    destruct (Z.compare_spec (2 * (n2 mod d)) d) as [C2|C2|C2];
    destruct Cs as [Cs|[Cs Cr]];
    try rewrite Cs;
    try destruct (Z.even (n1 / d)) eqn:Ev1;
    try destruct (Z.even (n2 / d)) eqn:Ev2; try lia; congruence.
Qed.

Lemma round_half_even_mono (p q : Q) :
  p <= q ->
  (round_half_even (Qnum p) (Zpos (Qden p))
   <= round_half_even (Qnum q) (Zpos (Qden q)))%Z.
Proof.
  intros L. unfold Qle in L.
  rewrite <- (round_half_even_scale (Qnum p) (Zpos (Qden p)) (Zpos (Qden q)))
    by lia.
  rewrite <- (round_half_even_scale (Qnum q) (Zpos (Qden q)) (Zpos (Qden p)))
    by lia.
  rewrite (Z.mul_comm (Zpos (Qden q)) (Zpos (Qden p))).
  apply round_half_even_mono_num; lia.
Qed.

Lemma round_half_even_half (y : Q) :
  inject_Z (round_half_even (Qnum y) (Zpos (Qden y))) - y <= 1 # 2
  /\ y - inject_Z (round_half_even (Qnum y) (Zpos (Qden y))) <= 1 # 2.
Proof.
  destruct (round_half_even_near (Qnum y) (Zpos (Qden y)) ltac:(lia)) as [N1 N2].
  destruct y as [n d]. cbn [Qnum Qden] in *.
  set (k := round_half_even n (Zpos d)) in *.
  unfold Qle, Qminus, Qplus, Qopp, inject_Z; cbn [Qnum Qden]. split; lia.
Qed.

Lemma fraction_quantize_near :
  forall x s : Q,
    0 < s ->
    exists q,
      quantize x s = Ok q
      /\ x - s / 2 <= q /\ q <= x + s / 2
      /\ forall y, x <= y ->
                   exists q', quantize y s = Ok q' /\ q <= q'.
Proof.
  intros x s Hs.
  assert (Nz : ~ s == 0) by lra.
  rewrite (fraction_quantize x s Nz). eexists. split; [reflexivity|].
  destruct (round_half_even_half (x / s)) as [K1 K2].
  set (k := round_half_even (Qnum (x / s)) (Zpos (Qden (x / s)))) in *.
  assert (Hy : x == (x / s) * s) by (field; exact Nz).
  set (y := x / s) in *.
  assert (S2 : s / 2 == s * (1 # 2)) by field.
  split; [|split].
  - rewrite S2. rewrite Hy at 1. nra.
  - rewrite S2. rewrite Hy at 1. nra.
  - intros z Lz. rewrite (fraction_quantize z s Nz). eexists. split; [reflexivity|].
    apply Qmult_le_compat_r; [|lra].
    rewrite <- Zle_Qle. apply round_half_even_mono.
    unfold y. apply Qmult_le_compat_r; auto.
    apply Qlt_le_weak, Qinv_lt_0_compat, Hs.
Qed.

(** X4: over exact rationals, for a step [s > 0], [quantize x s] is
    within half a step of [x], and [quantize] does not reverse an order:
    [x <= y] gives [quantize x s <= quantize y s]. *)
Theorem quantize_nearest :
  forall x s : Q,
    0 < s ->
    exists q,
      quantize x s = Ok q
      /\ x - s / 2 <= q /\ q <= x + s / 2
      /\ forall y, x <= y ->
                   exists q', quantize y s = Ok q' /\ q <= q'.
Proof. exact fraction_quantize_near. Qed.

Lemma quantize_nearest_witness :
  exists q,
    quantize (553 # 10) (1 # 2) = Ok q
    /\ (553 # 10) - (1 # 2) / 2 <= q /\ q <= (553 # 10) + (1 # 2) / 2
    /\ forall y, (553 # 10) <= y ->
                 exists q', quantize y (1 # 2) = Ok q' /\ q <= q'.
Proof. exact (quantize_nearest (553 # 10) (1 # 2) eq_refl). Defined.

Lemma float_abs_not_below (d t : float) :
  PrimFloat.leb t 0 = true -> PrimFloat.ltb (PrimFloat.abs d) t = false.
Proof.
  rewrite leb_spec, ltb_spec, abs_spec. unfold SFleb, SFltb.
  change (Prim2SF 0) with (S754_zero false).
  destruct (Prim2SF d) as [s|s| |s m e], (Prim2SF t) as [s'|s'| |s' m' e'];
    simpl; try destruct s'; simpl; congruence.
Qed.

(** X5: when the threshold [dz_frac * (rmax - rmin)] is zero or
    negative (a zero dead-zone fraction, or a range given the wrong way
    round), [within_deadzone] is false for every candidate: nothing is
    ever suppressed.  Over exact rationals and on floats. *)
Theorem deadzone_disabled :
  (forall (prev : option Q) (cur rmin rmax dz : Q),
      dz * (rmax - rmin) <= 0 ->
      within_deadzone prev cur rmin rmax dz = false)
  /\ (forall (prev : option float) (cur rmin rmax dz : float),
        leb (mul dz (sub rmax rmin)) 0%float = true ->
        within_deadzone prev cur rmin rmax dz = false).
Proof.
  split.
  - intros [p|] cur rmin rmax dz T; [|reflexivity].
    change (Fraction.ltb (Qabs (cur - p)) (dz * (rmax - rmin)) = false).
    apply fraction_ltb_false. apply (Qle_trans _ 0); auto. apply Qabs_nonneg.
  - intros [p|] cur rmin rmax dz T; simpl in *; [|reflexivity].
    apply float_abs_not_below, T.
Qed.

(** clamp01 and lerp over exact rationals *)

Lemma deadzone_disabled_witness :
  within_deadzone (Some 55) (5501 # 100) 100 10 (2 # 100) = false
  /\ within_deadzone (Some 55%float) 55.01%float 100%float 10%float 0.02%float
     = false.
Proof.
  split.
  - refine (proj1 deadzone_disabled (Some 55) (5501 # 100) 100 10 (2 # 100) _).
    intros E; discriminate E.
  - exact (proj2 deadzone_disabled (Some 55%float) 55.01%float 100%float
             10%float 0.02%float eq_refl).
Defined.

(** ** Whole runs *)

Section RunFacts.
Context {F : Type} `{PyNumber F}.
Variable power : F -> F -> result F.
Variable cfg : Config F.

(** what one iteration does on the size channel *)
Lemma step_size_channel (st st' : State F) (fr : Frame F) (msgs : list (Msg F)) :
  step power cfg st fr = Ok (st', msgs) ->
  (values_to addr_size msgs = [] /\ last_sent_size st' = last_sent_size st)
  \/ exists v x,
      values_to addr_size msgs = [v]
      /\ last_sent_size st' = Some v
      /\ within_deadzone (last_sent_size st) v (fst (SIZE_RANGE cfg))
           (snd (SIZE_RANGE cfg)) (DEADZONE_NORM cfg) = false
      /\ sm_size st' = Some x
      /\ quantize x (STEP_SIZE cfg) = Ok v.
Proof.
  intros E. destruct (detected fr) as [[cx cy]|] eqn:D.
  - destruct (step_hand_inv power cfg st st' fr cx cy msgs D E)
      as (tg & cand & ok & Etg & Ec & Eok & Er).
    unfold candidates in Ec.
    apply bind_ok in Ec as (cs & Ecs & Ec). apply bind_ok in Ec as (cd & Ecd & Ec).
    inversion Ec; subst cand; clear Ec.
    destruct ok.
    + unfold transmit, send_size, send_decay in Er. cbn [fst snd smooth last_sent_size last_sent_decay] in Er.
      destruct (within_deadzone (last_sent_size st) cs _ _ _) eqn:W;
        destruct (within_deadzone (last_sent_decay st) cd _ _ _) eqn:W';
        inversion Er; subst; cbn; auto;
        right; exists cs; eexists; repeat split; eauto.
    + inversion Er; subst. left; auto.
  - rewrite (step_no_hand power cfg st fr D) in E. inversion E; subst. left; auto.
Qed.

Lemma step_decay_channel (st st' : State F) (fr : Frame F) (msgs : list (Msg F)) :
  step power cfg st fr = Ok (st', msgs) ->
  (values_to addr_decay msgs = [] /\ last_sent_decay st' = last_sent_decay st)
  \/ exists v x,
      values_to addr_decay msgs = [v]
      /\ last_sent_decay st' = Some v
      /\ within_deadzone (last_sent_decay st) v (fst (DECAY_RANGE cfg))
           (snd (DECAY_RANGE cfg)) (DEADZONE_NORM cfg) = false
      /\ sm_decay st' = Some x
      /\ quantize x (STEP_DECAY cfg) = Ok v.
Proof.
  intros E. destruct (detected fr) as [[cx cy]|] eqn:D.
  - destruct (step_hand_inv power cfg st st' fr cx cy msgs D E)
      as (tg & cand & ok & Etg & Ec & Eok & Er).
    unfold candidates in Ec.
    apply bind_ok in Ec as (cs & Ecs & Ec). apply bind_ok in Ec as (cd & Ecd & Ec).
    inversion Ec; subst cand; clear Ec.
    destruct ok.
    + unfold transmit, send_size, send_decay in Er. cbn [fst snd smooth last_sent_size last_sent_decay] in Er.
      destruct (within_deadzone (last_sent_size st) cs _ _ _) eqn:W;
        destruct (within_deadzone (last_sent_decay st) cd _ _ _) eqn:W';
        inversion Er; subst; cbn; auto;
        right; exists cd; eexists; repeat split; eauto.
    + inversion Er; subst. left; auto.
  - rewrite (step_no_hand power cfg st fr D) in E. inversion E; subst. left; auto.
Qed.

(** the shapes of what one iteration sends *)
Lemma step_msgs_shape (st st' : State F) (fr : Frame F) (msgs : list (Msg F)) :
  step power cfg st fr = Ok (st', msgs) ->
  msgs = []
  \/ (exists v, msgs = [(addr_size, v)])
  \/ (exists w, msgs = [(addr_decay, w)])
  \/ (exists v w, msgs = [(addr_size, v); (addr_decay, w)]).
Proof.
  intros E. destruct (detected fr) as [[cx cy]|] eqn:D.
  - destruct (step_hand_inv power cfg st st' fr cx cy msgs D E)
      as (tg & cand & ok & _ & _ & _ & Er).
    destruct ok; [|inversion Er; auto].
    unfold transmit in Er.
    destruct (send_size _ _ _), (send_decay _ _ _); inversion Er; subst; cbn;
      eauto 6.
  - rewrite (step_no_hand power cfg st fr D) in E. inversion E; auto.
Qed.

Lemma sent_values_cons (a : Address) (t : F) (msgs : list (Msg F))
  (log : list (Transmission F)) :
  sent_values a (match msgs with
                 | [] => log
                 | m :: ms => (t, m :: ms) :: log
                 end)
  = values_to a msgs ++ sent_values a log.
Proof. destruct msgs; reflexivity. Qed.

Lemma last_time_cons (prev t : F) (msgs : list (Msg F))
  (log : list (Transmission F)) :
  last_time prev (match msgs with
                  | [] => log
                  | m :: ms => (t, m :: ms) :: log
                  end)
  = last_time (match msgs with [] => prev | _ => t end) log.
Proof. destruct msgs; reflexivity. Qed.

Lemma main_loop_mirror (frames : list (Frame F)) :
  forall (st st' : State F) (log : list (Transmission F)),
    main_loop power cfg st frames = Ok (st', log) ->
    last_tx_time st' = last_time (last_tx_time st) log
    /\ last_sent_size st' = latest (last_sent_size st) (sent_values addr_size log)
    /\ last_sent_decay st'
       = latest (last_sent_decay st) (sent_values addr_decay log).
Proof.
  induction frames as [|fr rest IH]; simpl; intros st st' log E.
  - inversion E; subst. repeat split.
  - split_loop E st1 msgs st2 log2 Es Er.
    destruct (IH _ _ _ Er) as (I1 & I2 & I3).
    rewrite last_time_cons, !sent_values_cons. unfold latest in *.
    rewrite !fold_left_app.
    split; [|split].
    + rewrite I1. f_equal.
      destruct (step_last_tx_time power cfg st st1 fr msgs Es)
        as [[-> L]|(N & L & _)]; auto.
      destruct msgs; [now elim N|exact L].
    + rewrite I2. f_equal.
      destruct (step_size_channel _ _ _ _ Es) as [[-> L]|(v & x & -> & L & _)];
        auto.
    + rewrite I3. f_equal.
      destruct (step_decay_channel _ _ _ _ Es) as [[-> L]|(v & x & -> & L & _)];
        auto.
Qed.

Lemma main_loop_spaced (frames : list (Frame F)) :
  forall (st st' : State F) (log : list (Transmission F)),
    main_loop power cfg st frames = Ok (st', log) ->
    spaced (SIZE_RANGE cfg) (DEADZONE_NORM cfg) (last_sent_size st)
      (sent_values addr_size log)
    /\ spaced (DECAY_RANGE cfg) (DEADZONE_NORM cfg) (last_sent_decay st)
         (sent_values addr_decay log).
Proof.
  induction frames as [|fr rest IH]; simpl; intros st st' log E.
  - inversion E; subst. split; exact I.
  - split_loop E st1 msgs st2 log2 Es Er.
    destruct (IH _ _ _ Er) as (I1 & I2).
    rewrite !sent_values_cons. split.
    + destruct (step_size_channel _ _ _ _ Es)
        as [[-> L]|(v & x & -> & L & W & _)]; simpl.
      * rewrite <- L; exact I1.
      * split; auto. rewrite <- L; exact I1.
    + destruct (step_decay_channel _ _ _ _ Es)
        as [[-> L]|(v & x & -> & L & W & _)]; simpl.
      * rewrite <- L; exact I2.
      * split; auto. rewrite <- L; exact I2.
Qed.

Lemma main_loop_on_grid (frames : list (Frame F)) :
  forall (st st' : State F) (log : list (Transmission F)),
    main_loop power cfg st frames = Ok (st', log) ->
    Forall (fun v => exists x, quantize x (STEP_SIZE cfg) = Ok v)
      (sent_values addr_size log)
    /\ Forall (fun v => exists x, quantize x (STEP_DECAY cfg) = Ok v)
         (sent_values addr_decay log).
Proof.
  induction frames as [|fr rest IH]; simpl; intros st st' log E.
  - inversion E; subst. split; constructor.
  - split_loop E st1 msgs st2 log2 Es Er.
    destruct (IH _ _ _ Er) as (I1 & I2).
    rewrite !sent_values_cons. split; apply Forall_app; split; auto.
    + destruct (step_size_channel _ _ _ _ Es)
        as [[-> L]|(v & x & -> & _ & _ & _ & Q)]; repeat constructor; eauto.
    + destruct (step_decay_channel _ _ _ _ Es)
        as [[-> L]|(v & x & -> & _ & _ & _ & Q)]; repeat constructor; eauto.
Qed.

Lemma main_loop_shapes (frames : list (Frame F)) :
  forall (st st' : State F) (log : list (Transmission F)),
    main_loop power cfg st frames = Ok (st', log) ->
    Forall (fun tx =>
              (exists v, snd tx = [(addr_size, v)])
              \/ (exists w, snd tx = [(addr_decay, w)])
              \/ (exists v w, snd tx = [(addr_size, v); (addr_decay, w)]))
           log.
Proof.
  induction frames as [|fr rest IH]; simpl; intros st st' log E.
  - inversion E; subst. constructor.
  - split_loop E st1 msgs st2 log2 Es Er.
    specialize (IH _ _ _ Er).
    destruct (step_msgs_shape _ _ _ _ Es) as [->|S]; auto.
    destruct msgs as [|m ms].
    + exact IH.
    + constructor; auto.
Qed.

Lemma main_loop_first_both (frames : list (Frame F)) :
  forall (st st' : State F) (tx : Transmission F) (log : list (Transmission F)),
    last_sent_size st = None -> last_sent_decay st = None ->
    main_loop power cfg st frames = Ok (st', tx :: log) ->
    exists v w, snd tx = [(addr_size, v); (addr_decay, w)].
Proof.
  induction frames as [|fr rest IH]; simpl; intros st st' tx log Ns Nd E.
  - inversion E.
  - apply bind_ok in E as ([st1 msgs] & Es & E).
    apply bind_ok in E as ([st2 log2] & Er & E).
    simpl in *.
    destruct msgs as [|m ms].
    + inversion E; subst.
      destruct (step_size_channel _ _ _ _ Es) as [[_ L]|(v & x & V & _)];
        [|discriminate V].
      destruct (step_decay_channel _ _ _ _ Es) as [[_ L']|(v & x & V & _)];
        [|discriminate V].
      apply (IH st1 st' tx log); congruence.
    + inversion E; subst; clear E. simpl.
      destruct (detected fr) as [[cx cy]|] eqn:D.
      * destruct (step_hand_inv power cfg st st1 fr cx cy _ D Es)
          as (tg & cand & ok & _ & _ & _ & Er').
        destruct ok; [|inversion Er'].
        unfold transmit, send_size, send_decay in Er'.
        cbn [smooth last_sent_size last_sent_decay] in Er'.
        rewrite Ns, Nd in Er'. simpl in Er'. inversion Er'. eauto.
      * rewrite (step_no_hand power cfg st fr D) in Es. inversion Es.
Qed.

Lemma main_loop_app (l1 l2 : list (Frame F)) :
  forall st,
    main_loop power cfg st (l1 ++ l2)
    = (r1 <- main_loop power cfg st l1 ;;
       r2 <- main_loop power cfg (fst r1) l2 ;;
       Ok (fst r2, snd r1 ++ snd r2)).
Proof.
  induction l1 as [|fr rest IH]; simpl; intros st.
  - destruct (main_loop power cfg st l2) as [[s l]|e]; reflexivity.
  - destruct (step power cfg st fr) as [[st1 msgs]|e]; simpl; [|reflexivity].
    rewrite IH.
    destruct (main_loop power cfg st1 rest) as [[s l]|e]; simpl; [|reflexivity].
    destruct (main_loop power cfg s l2) as [[s' l']|e]; simpl; [|reflexivity].
    destruct msgs; reflexivity.
Qed.

Lemma main_loop_fed (frames : list (Frame F)) :
  forall (st st' : State F) (log : list (Transmission F)),
    main_loop power cfg st frames = Ok (st', log) ->
    exists tgs,
      fed_targets power cfg frames = Ok tgs
      /\ sm_size st'
         = fold_left (fun s t => Some (ema s t (SMOOTH_ALPHA cfg)))
             (map fst tgs) (sm_size st)
      /\ sm_decay st'
         = fold_left (fun s t => Some (ema s t (SMOOTH_ALPHA cfg)))
             (map snd tgs) (sm_decay st).
Proof.
  induction frames as [|fr rest IH]; simpl; intros st st' log E.
  - inversion E; subst. exists []. repeat split.
  - split_loop E st1 msgs st2 log2 Es Er.
    destruct (IH _ _ _ Er) as (tgs & Ef & I1 & I2).
    destruct (detected fr) as [[cx cy]|] eqn:D.
    + destruct (step_hand_inv power cfg st st1 fr cx cy msgs D Es)
        as (tg & cand & ok & Etg & _ & _ & Er').
      exists (tg :: tgs). rewrite Etg, Ef. simpl. split; [reflexivity|].
      rewrite I1, I2.
      destruct ok; inversion Er'; subst; split; reflexivity.
    + rewrite (step_no_hand power cfg st fr D) in Es. inversion Es; subst.
      exists tgs. auto.
Qed.

End RunFacts.

Lemma latest_cons {F : Type} (vs : list F) :
  forall (p : option F) (v : F), latest p (v :: vs) <> None.
Proof.
  unfold latest. induction vs as [|w vs IH]; simpl; intros p v.
  - discriminate.
  - apply (IH (Some v) w).
Qed.

Lemma fed_targets_detected {F : Type} `{PyNumber F}
  (power : F -> F -> result F) (cfg : Config F) (f1 : list (Frame F)) :
  forall f2,
    map detected f1 = map detected f2 ->
    fed_targets power cfg f1 = fed_targets power cfg f2.
Proof.
  induction f1 as [|a f1 IH]; intros [|b f2] E; simpl in *; try discriminate.
  - reflexivity.
  - inversion E as [[Ea Er]]. rewrite Ea, (IH f2 Er). reflexivity.
Qed.


(** X7: after a run of [main] the three variables of the gate say what
    the log says: the time of the last transmission is the time of the
    last entry (0.0 when there is none), and each last sent value is the
    last value sent to its address (None when there is none); once
    anything has been transmitted both last sent values are set. *)
Theorem gate_state_mirrors_log :
  forall (F : Type) (N : PyNumber F) (power : F -> F -> result F)
         (cfg : Config F) (frames : list (Frame F)) (st : State F)
         (log : list (Transmission F)),
    main power cfg frames = Ok (st, log) ->
    last_tx_time st = last_time zero log
    /\ last_sent_size st = latest None (sent_values addr_size log)
    /\ last_sent_decay st = latest None (sent_values addr_decay log)
    /\ (log <> [] -> last_sent_size st <> None /\ last_sent_decay st <> None).
Proof.
  intros F N power cfg frames st log E.
  destruct (main_loop_mirror power cfg frames init st log E) as (M1 & M2 & M3).
  split; [exact M1|]. split; [exact M2|]. split; [exact M3|].
  intros Nn. destruct log as [|tx rest]; [now elim Nn|].
  destruct (main_loop_first_both power cfg frames init st tx rest
              eq_refl eq_refl E) as (v & w & S).
  rewrite M2, M3. unfold sent_values. simpl. rewrite S.
  split; apply latest_cons.
Qed.

Lemma gate_state_mirrors_log_witness :
  exists st log,
    main power_linear CONFIG_linear moving_frames = Ok (st, log)
    /\ last_tx_time st = last_time 0%float log
    /\ last_sent_size st = latest None (sent_values addr_size log)
    /\ last_sent_decay st = latest None (sent_values addr_decay log)
    /\ (log <> [] -> last_sent_size st <> None /\ last_sent_decay st <> None).
Proof.
  eexists. eexists. split; [vm_compute; reflexivity|].
  refine (gate_state_mirrors_log float float_number power_linear
            CONFIG_linear moving_frames _ _ _).
  vm_compute; reflexivity.
Defined.

(** X8: a run never sends an update that is inside the dead zone: on
    each channel every value sent fails the dead-zone test against the
    value sent before it on that channel (and the first one is sent
    whatever it is). *)
Theorem no_update_within_dead_zone :
  forall (F : Type) (N : PyNumber F) (power : F -> F -> result F)
         (cfg : Config F) (frames : list (Frame F)) (st : State F)
         (log : list (Transmission F)),
    main power cfg frames = Ok (st, log) ->
    spaced (SIZE_RANGE cfg) (DEADZONE_NORM cfg) None (sent_values addr_size log)
    /\ spaced (DECAY_RANGE cfg) (DEADZONE_NORM cfg) None
         (sent_values addr_decay log).
Proof.
  intros F N power cfg frames st log E.
  exact (main_loop_spaced power cfg frames init st log E).
Qed.

Lemma no_update_within_dead_zone_witness :
  exists st log,
    main power_linear CONFIG_linear moving_frames = Ok (st, log)
    /\ spaced (SIZE_RANGE CONFIG_linear) (DEADZONE_NORM CONFIG_linear) None
         (sent_values addr_size log)
    /\ spaced (DECAY_RANGE CONFIG_linear) (DEADZONE_NORM CONFIG_linear) None
         (sent_values addr_decay log).
Proof.
  eexists. eexists. split; [vm_compute; reflexivity|].
  refine (no_update_within_dead_zone float float_number power_linear
            CONFIG_linear moving_frames _ _ _).
  vm_compute; reflexivity.
Defined.

Lemma fraction_quantize_fixed (x s v : Q) :
  quantize x s = Ok v -> quantize v s = Ok v.
Proof.
  intros E.
  assert (Nz : ~ s == 0).
  { intros Z. unfold quantize in E. simpl in E. unfold Fraction.div in E.
    apply Qeq_bool_iff in Z. rewrite Z in E. discriminate E. }
  rewrite (fraction_quantize x s Nz) in E. inversion E; subst.
  apply fraction_quantize_grid, Nz.
Qed.



(** X10: every transmission of a run carries one message or two, never
    two to the same address, and the size before the decay; the first
    transmission of a run always carries both. *)
Theorem transmission_shapes :
  forall (F : Type) (N : PyNumber F) (power : F -> F -> result F)
         (cfg : Config F) (frames : list (Frame F)) (st : State F)
         (log : list (Transmission F)),
    main power cfg frames = Ok (st, log) ->
    Forall (fun tx =>
              (exists v, snd tx = [(addr_size, v)])
              \/ (exists w, snd tx = [(addr_decay, w)])
              \/ (exists v w, snd tx = [(addr_size, v); (addr_decay, w)]))
           log
    /\ (forall tx rest,
          log = tx :: rest ->
          exists v w, snd tx = [(addr_size, v); (addr_decay, w)]).
Proof.
  intros F N power cfg frames st log E. split.
  - exact (main_loop_shapes power cfg frames init st log E).
  - intros tx rest ->.
    exact (main_loop_first_both power cfg frames init st tx rest
             eq_refl eq_refl E).
Qed.

Lemma transmission_shapes_witness :
  exists st log,
    main power_linear CONFIG_linear moving_frames = Ok (st, log)
    /\ Forall (fun tx =>
                 (exists v, snd tx = [(addr_size, v)])
                 \/ (exists w, snd tx = [(addr_decay, w)])
                 \/ (exists v w, snd tx = [(addr_size, v); (addr_decay, w)]))
              log
    /\ (forall tx rest,
          log = tx :: rest ->
          exists v w, snd tx = [(addr_size, v); (addr_decay, w)]).
Proof.
  eexists. eexists. split; [vm_compute; reflexivity|].
  refine (transmission_shapes float float_number power_linear
            CONFIG_linear moving_frames _ _ _).
  vm_compute; reflexivity.
Defined.

(** X11: the smoothed values a run leaves are those of the smoother fed
    the targets of the frames with a detection, in order, and nothing
    else: two runs that see the same detections leave the same smoothed
    values, whatever their clocks and whatever was or was not
    transmitted. *)
Theorem smoothed_state_from_targets :
  forall (F : Type) (N : PyNumber F) (power : F -> F -> result F)
         (cfg : Config F) (frames : list (Frame F)) (st : State F)
         (log : list (Transmission F)),
    main power cfg frames = Ok (st, log) ->
    (exists tgs,
        fed_targets power cfg frames = Ok tgs
        /\ sm_size st = smoothed_after (SMOOTH_ALPHA cfg) (map fst tgs)
        /\ sm_decay st = smoothed_after (SMOOTH_ALPHA cfg) (map snd tgs))
    /\ (forall frames' st' log',
          map detected frames' = map detected frames ->
          main power cfg frames' = Ok (st', log') ->
          sm_size st' = sm_size st /\ sm_decay st' = sm_decay st).
Proof.
  intros F N power cfg frames st log E.
  destruct (main_loop_fed power cfg frames init st log E) as (tgs & Ef & S1 & S2).
  split.
  - exists tgs. auto.
  - intros frames' st' log' D E'.
    destruct (main_loop_fed power cfg frames' init st' log' E')
      as (tgs' & Ef' & S1' & S2').
    rewrite (fed_targets_detected power cfg frames' frames D), Ef in Ef'.
    inversion Ef'; subst tgs'. split; congruence.
Qed.

Lemma smoothed_state_from_targets_witness :
  exists st log,
    main power_linear CONFIG_linear moving_frames = Ok (st, log)
    /\ (exists tgs,
          fed_targets power_linear CONFIG_linear moving_frames = Ok tgs
          /\ sm_size st = smoothed_after (SMOOTH_ALPHA CONFIG_linear) (map fst tgs)
          /\ sm_decay st
             = smoothed_after (SMOOTH_ALPHA CONFIG_linear) (map snd tgs))
    /\ (forall frames' st' log',
          map detected frames' = map detected moving_frames ->
          main power_linear CONFIG_linear frames' = Ok (st', log') ->
          sm_size st' = sm_size st /\ sm_decay st' = sm_decay st).
Proof.
  eexists. eexists. split; [vm_compute; reflexivity|].
  refine (smoothed_state_from_targets float float_number power_linear
            CONFIG_linear moving_frames _ _ _).
  vm_compute; reflexivity.
Defined.

(** ** Whole runs over exact rationals *)

Section ExactMore.
Variable power : Q -> Q -> result Q.
Variable cfg : Config Q.

Lemma fraction_div_total (x s : Q) : ~ s == 0 -> exists y, div x s = Ok y.
Proof.
  intros Nz. simpl. unfold Fraction.div.
  destruct (Qeq_bool s 0) eqn:E; [|eauto].
  apply Qeq_bool_iff in E. contradiction.
Qed.

Lemma step_total (st : State Q) (fr : Frame Q) :
  power_total power ->
  ~ STEP_SIZE cfg == 0 -> ~ STEP_DECAY cfg == 0 -> ~ MAX_UPS cfg == 0 ->
  exists r, step power cfg st fr = Ok r.
Proof.
  intros T Ns Nd Nm. unfold step.
  destruct (detected fr) as [[cx cy]|]; [|eauto].
  unfold targets, resp_curve.
  destruct (T (clamp01 cx) (GAMMA_X cfg)) as (nx & ->). cbn [bind].
  destruct (T (clamp01 (if INVERT_Y cfg then sub one cy else cy)) (GAMMA_Y cfg))
    as (ny & ->). cbn [bind].
  unfold candidates. rewrite !fraction_quantize by assumption. cbn [bind].
  unfold gate, rate_eligible.
  destruct (fraction_div_total 1 (MAX_UPS cfg) Nm) as (p & Ep).
  change (@one Q fraction_number) with 1. rewrite Ep. cbn [bind]. eauto.
Qed.

Lemma main_loop_total :
  power_total power ->
  ~ STEP_SIZE cfg == 0 -> ~ STEP_DECAY cfg == 0 -> ~ MAX_UPS cfg == 0 ->
  forall frames st, exists r, main_loop power cfg st frames = Ok r.
Proof.
  intros T Ns Nd Nm. induction frames as [|fr rest IH]; simpl; intros st.
  - eauto.
  - destruct (step_total st fr T Ns Nd Nm) as (r & ->). simpl.
    destruct (IH (fst r)) as (o & ->). simpl. eauto.
Qed.

(** rate bound *)
Lemma chained_span (period : Q) :
  div one (MAX_UPS cfg) = Ok period ->
  forall (log : list (Transmission Q)) (prev : Q),
    chained cfg prev log ->
    inject_Z (Z.of_nat (length log)) * period <= last_time prev log - prev.
Proof.
  intros Ep. induction log as [|tx rest IH]; intros prev C.
  - change (0 * period <= prev - prev). lra.
  - destruct C as [(p & Ep' & L) C].
    rewrite Ep in Ep'. inversion Ep'; subst p; clear Ep'.
    simpl in L. apply Qle_bool_iff in L.
    specialize (IH (fst tx) C).
    change (last_time prev (tx :: rest)) with (last_time (fst tx) rest).
    change (length (tx :: rest)) with (S (length rest)).
    rewrite Nat2Z.inj_succ. unfold Z.succ. rewrite inject_Z_plus.
    change (inject_Z 1) with 1. nra.
Qed.

(** end to end range *)
Lemma main_loop_sent_in_range :
  power_into_unit power ->
  fst (SIZE_RANGE cfg) <= snd (SIZE_RANGE cfg) ->
  fst (DECAY_RANGE cfg) <= snd (DECAY_RANGE cfg) ->
  0 <= SMOOTH_ALPHA cfg -> SMOOTH_ALPHA cfg <= 1 ->
  0 < STEP_SIZE cfg -> 0 < STEP_DECAY cfg ->
  forall (frames : list (Frame Q)) (st st' : State Q)
         (log : list (Transmission Q)),
    within (fst (SIZE_RANGE cfg)) (snd (SIZE_RANGE cfg)) (sm_size st) ->
    within (fst (DECAY_RANGE cfg)) (snd (DECAY_RANGE cfg)) (sm_decay st) ->
    main_loop power cfg st frames = Ok (st', log) ->
    Forall (fun v => fst (SIZE_RANGE cfg) - STEP_SIZE cfg / 2 <= v
                     /\ v <= snd (SIZE_RANGE cfg) + STEP_SIZE cfg / 2)
      (sent_values addr_size log)
    /\ Forall (fun v => fst (DECAY_RANGE cfg) - STEP_DECAY cfg / 2 <= v
                        /\ v <= snd (DECAY_RANGE cfg) + STEP_DECAY cfg / 2)
         (sent_values addr_decay log).
Proof.
  intros U Rs Rd A0 A1 Ss Sd.
  induction frames as [|fr rest IH]; simpl; intros st st' log Ws Wd E.
  - inversion E; subst. split; constructor.
  - split_loop E st1 msgs st2 log2 Es Er.
    assert (W1 : within (fst (SIZE_RANGE cfg)) (snd (SIZE_RANGE cfg)) (sm_size st1)
                 /\ within (fst (DECAY_RANGE cfg)) (snd (DECAY_RANGE cfg))
                      (sm_decay st1)).
    { pose proof (step_smoothed power cfg st st1 fr msgs Es) as Sm.
      destruct (detected fr) as [[cx cy]|].
      - destruct Sm as (tg & Etg & -> & ->).
        destruct (targets_in_ranges power cfg U Rs Rd cx cy tg Etg) as [T1 T2].
        split; apply ema_within; auto.
      - subst; auto. }
    destruct W1 as [W1 W2].
    destruct (IH st1 st' log2 W1 W2 Er) as [I1 I2].
    rewrite !sent_values_cons. split; apply Forall_app; split; auto.
    + destruct (step_size_channel power cfg _ _ _ _ Es)
        as [[-> L]|(v & x & -> & _ & _ & Ex & Q)]; repeat constructor.
      * destruct (fraction_quantize_near x (STEP_SIZE cfg) Ss) as (q & Eq & B1 & B2 & _).
        rewrite Q in Eq. inversion Eq; subst q.
        destruct (W1 x Ex). lra.
      * destruct (fraction_quantize_near x (STEP_SIZE cfg) Ss) as (q & Eq & B1 & B2 & _).
        rewrite Q in Eq. inversion Eq; subst q.
        destruct (W1 x Ex). lra.
    + destruct (step_decay_channel power cfg _ _ _ _ Es)
        as [[-> L]|(v & x & -> & _ & _ & Ex & Q)]; repeat constructor.
      * destruct (fraction_quantize_near x (STEP_DECAY cfg) Sd) as (q & Eq & B1 & B2 & _).
        rewrite Q in Eq. inversion Eq; subst q.
        destruct (W2 x Ex). lra.
      * destruct (fraction_quantize_near x (STEP_DECAY cfg) Sd) as (q & Eq & B1 & B2 & _).
        rewrite Q in Eq. inversion Eq; subst q.
        destruct (W2 x Ex). lra.
Qed.

End ExactMore.

(** closed form of the smoother on a constant target *)
Lemma constant_target_closed_form (a T : Q) :
  forall (n : nat) (s0 : Q),
    exists s,
      fold_left (fun s t => Some (ema s t a)) (repeat T n) (Some s0) = Some s
      /\ s - T == (1 - a) ^ Z.of_nat n * (s0 - T).
Proof.
  induction n as [|n IH]; intros s0.
  - exists s0. split; [reflexivity|]. simpl. ring.
  - destruct (IH (a * T + (1 - a) * s0)) as (s & Es & Cs).
    exists s. split; [exact Es|].
    rewrite Cs. rewrite Nat2Z.inj_succ. unfold Z.succ.
    rewrite Qpower_plus' by lia. rewrite Qpower_1_r. ring.
Qed.







(** X15: over exact rationals, a smoother that holds [s0] and is fed the
    same target [T] [n] times ends at distance [(1 - alpha)^n * (s0 - T)]
    from [T]; fed nothing but [T] from the start it holds exactly [T]. *)
Theorem constant_target_convergence :
  forall (a T s0 : Q) (n : nat),
    (exists s,
        smoothed_after a (s0 :: repeat T n) = Some s
        /\ s - T == (1 - a) ^ Z.of_nat n * (s0 - T))
    /\ (exists s, smoothed_after a (repeat T (S n)) = Some s /\ s == T).
Proof.
  intros a T s0 n. split.
  - exact (constant_target_closed_form a T n s0).
  - destruct (constant_target_closed_form a T n T) as (s & Es & Cs).
    exists s. split; [exact Es|]. 
    assert (Z : s - T == 0) by (rewrite Cs; ring). lra.
Qed.

